(** * HarmonicEQL: the equivalent-layer interpolator of
      [harmonica/equivalent_layer/harmonic.py]

    The development embeds the module shallowly.

    - Numbers.  The arrays of the module hold [float64] values; they are
      modelled as real numbers, so the statements below are about the
      exact arithmetic the code describes (rounding, overflow and NaN are
      outside this model).  Where the exact value and the machine value
      part ways in a way a statement depends on, the kernel is also given
      on binary64 floats (module [Binary64]).
    - Arrays.  A numpy array is a view [ndarray] (a buffer location and a
      shape) into a store of buffers; views made by [ravel], [atleast_1d]
      and [reshape] share the buffer of their argument, [copy] and
      [np.zeros] allocate.
    - Effects.  Methods run in a state-and-exception monad over the
      [world] (the estimator's attributes and the store); an exception
      keeps every assignment made before it, as in Python.
    - The numba kernels are loops over the contents of their input arrays
      that write one output buffer. *)

From Stdlib Require Import Reals Lra Lia List ZArith Bool Arith.
From Stdlib Require PrimFloat.
Import ListNotations.
Local Open Scope R_scope.

(** ** Exceptions and the monad *)

(** What the external regression solver may signal (spec, section 4.4). *)
Inductive solver_error : Type :=
| DimensionMismatch
| SingularSystem.

Inductive exn : Type :=
| NotFittedError                       (* sklearn's check_is_fitted *)
| ZeroDivisionError                    (* numba, error_model='python' *)
| ValueError                           (* shape errors of numpy and verde *)
| AttributeError                       (* reading an attribute that is not set *)
| LeastSquaresError (e : solver_error) (* raised inside least_squares *).

Definition M (S A : Type) : Type := S -> S * (exn + A).

Definition ret {S A : Type} (a : A) : M S A := fun s => (s, inr a).

Definition raise {S A : Type} (e : exn) : M S A := fun s => (s, inl e).

Definition bind {S A B : Type} (m : M S A) (k : A -> M S B) : M S B :=
  fun s =>
    match m s with
    | (s', inr a) => k a s'
    | (s', inl e) => (s', inl e)
    end.

Definition get {S : Type} : M S S := fun s => (s, inr s).

Definition modify {S : Type} (f : S -> S) : M S unit := fun s => (f s, inr tt).

Declare Scope monad_scope.
Delimit Scope monad_scope with monad.
Notation "x <- m ;; k" := (bind m (fun x => k))
  (at level 61, m at next level, right associativity) : monad_scope.
Notation "m ;; k" := (bind m (fun _ => k))
  (at level 61, right associativity) : monad_scope.
Local Open Scope monad_scope.

(** [for i in l: body i] *)
Fixpoint for_in {S : Type} (l : list nat) (body : nat -> M S unit) : M S unit :=
  match l with
  | [] => ret tt
  | i :: l' => body i ;; for_in l' body
  end.

(** [for i in range(n): body i] *)
Definition for_range {S : Type} (n : nat) (body : nat -> M S unit) : M S unit :=
  for_in (seq 0 n) body.

(** ** Buffers *)

(** [a[i] = v] on a buffer; numba checks no bounds, the model leaves the
    buffer as it is when [i] is out of range. *)
Fixpoint list_set {A : Type} (i : nat) (v : A) (l : list A) : list A :=
  match l, i with
  | [], _ => []
  | _ :: l', O => v :: l'
  | x :: l', S i' => x :: list_set i' v l'
  end.

(** [a[i]] for a loop index [i >= 0]; reads 0 out of range. *)
Notation "a .[ i ]" := (nth i a 0) (at level 1, format "a .[ i ]").

(** [a[i]] for a signed index: a negative index counts from the end. *)
Definition getitem (a : list R) (i : Z) : R :=
  if (i <? 0)%Z then nth (Z.to_nat (Z.of_nat (length a) + i)) a 0
  else nth (Z.to_nat i) a 0.

(** ** Kernel *)

Definition distance (east_1 north_1 vertical_1 east_2 north_2 vertical_2 : R) : R :=
  let dist :=
    sqrt ((east_1 - east_2) ^ 2
          + (north_1 - north_2) ^ 2
          + (vertical_1 - vertical_2) ^ 2) in
  dist.

(** [1 / distance(...)]; the division raises when the distance is zero. *)
Definition greens_func (east north vertical point_east point_north point_vertical : R)
  : exn + R :=
  let d := distance east north vertical point_east point_north point_vertical in
  if Req_dec_T d 0 then inl ZeroDivisionError else inr (1 / d).

(** The kernel as the machine evaluates it, on binary64 floats.  numba
    compiles [x ** 2] with a constant exponent to the product [x * x], and
    its division raises when the divisor compares equal to zero. *)
Module Binary64.

Import PrimFloat.
Local Open Scope float_scope.

Definition distance64 (east_1 north_1 vertical_1 east_2 north_2 vertical_2 : float)
  : float :=
  let dist :=
    sqrt ((east_1 - east_2) * (east_1 - east_2)
          + (north_1 - north_2) * (north_1 - north_2)
          + (vertical_1 - vertical_2) * (vertical_1 - vertical_2)) in
  dist.

Definition greens_func64
           (east north vertical point_east point_north point_vertical : float)
  : exn + float :=
  let d := distance64 east north vertical point_east point_north point_vertical in
  if d =? 0 then inl ZeroDivisionError else inr (1 / d).

(** Two coordinates for examples: 2^-600, whose square underflows, and 0. *)
Definition tiny : float := 0x1p-600.
Definition origin : float := 0.

End Binary64.

(** A 3D point, for statements about pairs of points. *)
Definition point : Type := (R * R * R)%type.

Definition point_distance (P Q : point) : R :=
  let '(e1, n1, v1) := P in
  let '(e2, n2, v2) := Q in
  distance e1 n1 v1 e2 n2 v2.

Definition point_greens (P Q : point) : exn + R :=
  let '(e1, n1, v1) := P in
  let '(e2, n2, v2) := Q in
  greens_func e1 n1 v1 e2 n2 v2.

(** ** The numba kernels

    Each kernel reads the contents of its input arrays and runs on the
    buffer of its one output array. *)

Definition lift {S A : Type} (r : exn + A) : M S A := fun s => (s, r).

(** The contents of a tuple of three 1-d arrays. *)
Definition columns : Type := (list R * list R * list R)%type.

Definition distance_to_nearest_point (coordinates : columns) : M (list R) unit :=
  let '(east, north, vertical) := coordinates in
  for_range (length east) (fun i =>
    (* Initialize min_dist with the distance between the i-th and the
       (i-1)-th points *)
    modify (list_set i
              (distance east.[i] north.[i] vertical.[i]
                 (getitem east (Z.of_nat i - 1))
                 (getitem north (Z.of_nat i - 1))
                 (getitem vertical (Z.of_nat i - 1)))) ;;
    for_range (length east) (fun j =>
      if negb (i =? j)%nat then
        let dist :=
          distance east.[i] north.[i] vertical.[i] east.[j] north.[j] vertical.[j] in
        distances <- get ;;
        if Rlt_dec dist distances.[i] then modify (list_set i dist) else ret tt
      else ret tt)).

Definition predict_numba (coordinates points : columns) (coeffs : list R)
  : M (list R) unit :=
  let '(east, north, vertical) := coordinates in
  let '(point_east, point_north, point_vertical) := points in
  for_range (length east) (fun i =>
    for_range (length point_east) (fun j =>
      result <- get ;;
      g <- lift (greens_func east.[i] north.[i] vertical.[i]
                   point_east.[j] point_north.[j] point_vertical.[j]) ;;
      modify (list_set i (result.[i] + coeffs.[j] * g)))).

(** The offset of [jac[i, j]] in the buffer of a C-ordered 2-d array. *)
Definition offset2 (shape : list nat) (i j : nat) : nat :=
  (i * nth 1 shape 0 + j)%nat.

Definition jacobian_numba (coordinates points : columns) (jac_shape : list nat)
  : M (list R) unit :=
  let '(east, north, vertical) := coordinates in
  let '(point_east, point_north, point_vertical) := points in
  for_range (length east) (fun i =>
    for_range (length point_east) (fun j =>
      g <- lift (greens_func east.[i] north.[i] vertical.[i]
                   point_east.[j] point_north.[j] point_vertical.[j]) ;;
      modify (list_set (offset2 jac_shape i j) g))).

(** ** Arrays, the estimator and the world *)

Definition loc : Type := nat.

(** A C-contiguous view of a whole buffer. *)
Record ndarray : Type := mk_ndarray { buffer : loc; shape : list nat }.

Definition prod_shape (s : list nat) : nat := fold_right Nat.mul 1%nat s.

Definition size (a : ndarray) : nat := prod_shape (shape a).

(** [a.ravel()]: a 1-d view of the same buffer (the array is contiguous). *)
Definition ravel (a : ndarray) : ndarray := mk_ndarray (buffer a) [size a].

(** [np.atleast_1d(a)]: a 0-d array is viewed with shape (1,). *)
Definition atleast_1d (a : ndarray) : ndarray :=
  match shape a with
  | [] => mk_ndarray (buffer a) [1%nat]
  | _ :: _ => a
  end.

(** A tuple of three arrays: (easting, northing, vertical), the part
    [coordinates[:3]] that the module reads. *)
Definition coords : Type := (ndarray * ndarray * ndarray)%type.

(** [(W, E, S, N)] *)
Definition region : Type := (R * R * R * R)%type.

(** The attributes of an estimator; an attribute that has not been assigned
    is [None]. *)
Record HarmonicEQL : Type := mk_HarmonicEQL {
  damping : option R;
  points : option coords;
  depth_factor : R;
  region_ : option region;
  points_ : option coords;
  coefs_ : option ndarray
}.

Definition __init__ (damping : option R) (points : option coords) (depth_factor : R)
  : HarmonicEQL :=
  mk_HarmonicEQL damping points depth_factor None None None.

Record world : Type := mk_world { self : HarmonicEQL; heap : list (list R) }.

Definition set_region_ (r : region) (s : HarmonicEQL) : HarmonicEQL :=
  mk_HarmonicEQL (damping s) (points s) (depth_factor s) (Some r) (points_ s) (coefs_ s).

Definition set_points_ (p : coords) (s : HarmonicEQL) : HarmonicEQL :=
  mk_HarmonicEQL (damping s) (points s) (depth_factor s) (region_ s) (Some p) (coefs_ s).

Definition set_coefs_ (c : ndarray) (s : HarmonicEQL) : HarmonicEQL :=
  mk_HarmonicEQL (damping s) (points s) (depth_factor s) (region_ s) (points_ s) (Some c).

(** [self.attr = v] *)
Definition setattr (f : HarmonicEQL -> HarmonicEQL) : M world unit :=
  modify (fun w => mk_world (f (self w)) (heap w)).

(** [self.attr] *)
Definition getattr {A : Type} (f : HarmonicEQL -> option A) : M world A :=
  fun w =>
    match f (self w) with
    | Some a => (w, inr a)
    | None => (w, inl AttributeError)
    end.

Definition contents (h : list (list R)) (a : ndarray) : list R := nth (buffer a) h [].

Definition load (a : ndarray) : M world (list R) := fun w => (w, inr (contents (heap w) a)).

Definition load_columns (c : coords) : M world columns :=
  let '(east, north, vertical) := c in
  e <- load east ;; n <- load north ;; v <- load vertical ;; ret (e, n, v).

Definition alloc (v : list R) : M world loc :=
  fun w => (mk_world (self w) (heap w ++ [v]), inr (length (heap w))).

(** [np.zeros(shape)] *)
Definition np_zeros (shape : list nat) : M world ndarray :=
  l <- alloc (repeat 0 (prod_shape shape)) ;; ret (mk_ndarray l shape).

(** [a.copy()] *)
Definition copy (a : ndarray) : M world ndarray :=
  v <- load a ;; l <- alloc v ;; ret (mk_ndarray l (shape a)).

(** A kernel [k] called with [out] as its output array: whatever it wrote
    stays in the buffer, also when it raises. *)
Definition with_buffer {A : Type} (out : ndarray) (k : M (list R) A) : M world A :=
  fun w =>
    match k (contents (heap w) out) with
    | (v, r) => (mk_world (self w) (list_set (buffer out) v (heap w)), r)
    end.

(** [c * a] for a scalar [c]: a new array. *)
Definition scalar_mul (c : R) (a : ndarray) : M world ndarray :=
  v <- load a ;; l <- alloc (map (Rmult c) v) ;; ret (mk_ndarray l (shape a)).

Fixpoint zip_minus (a b : list R) : list R :=
  match a, b with
  | x :: a', y :: b' => (x - y) :: zip_minus a' b'
  | _, _ => []
  end.

(** [a -= b], in place in the buffer of [a], for arrays of one shape (the
    only case the module reaches; numpy raises for shapes that do not
    broadcast). *)
Definition isub (a b : ndarray) : M world unit :=
  if list_eq_dec Nat.eq_dec (shape a) (shape b) then
    x <- load a ;; y <- load b ;;
    modify (fun w => mk_world (self w) (list_set (buffer a) (zip_minus x y) (heap w)))
  else raise ValueError.

(** [a.reshape(s)]: a view; numpy raises when the sizes differ. *)
Definition reshape (a : ndarray) (s : list nat) : M world ndarray :=
  if (prod_shape s =? size a)%nat then ret (mk_ndarray (buffer a) s)
  else raise ValueError.

(** The shape numpy broadcasts two shapes to, on the reversed shapes. *)
Fixpoint broadcast_rev (a b : list nat) : option (list nat) :=
  match a, b with
  | [], _ => Some b
  | _, [] => Some a
  | x :: a', y :: b' =>
      match broadcast_rev a' b' with
      | None => None
      | Some r =>
          if (x =? y)%nat then Some (x :: r)
          else if (x =? 1)%nat then Some (y :: r)
          else if (y =? 1)%nat then Some (x :: r)
          else None
      end
  end.

Definition broadcast_shapes (a b : list nat) : option (list nat) :=
  option_map (@rev nat) (broadcast_rev (rev a) (rev b)).

Definition broadcast3 (c : coords) : option (list nat) :=
  let '(a1, a2, a3) := c in
  match broadcast_shapes (shape a1) (shape a2) with
  | None => None
  | Some s12 => broadcast_shapes s12 (shape a3)
  end.

(** [np.broadcast(a, b, c).shape]; numpy raises for shapes that do not
    broadcast. *)
Definition np_broadcast_shape (c : coords) : M world (list nat) :=
  match broadcast3 c with
  | None => raise ValueError
  | Some s => ret s
  end.

(** [np.broadcast(a, b, c).size] *)
Definition np_broadcast_size (c : coords) : M world nat :=
  s <- np_broadcast_shape c ;; ret (prod_shape s).

(** ** The external collaborators *)

(** The two capabilities of verde that the module calls and does not
    implement: the bounding box of the data (from the contents of the
    easting and northing arrays) and the damped weighted least-squares
    solver, called with the Jacobian (shape and contents), the data, the
    weights and the damping. *)
Class Collaborators : Type := {
  get_region : list R -> list R -> region;
  least_squares :
    list nat -> list R -> list R -> option (list R) -> option R -> solver_error + list R
}.

(** Modelled from the spec: verde's [check_fit_input] is not part of the
    sources; the spec (sections 6 and 7) has it validate that the
    coordinate, data and weight arrays have consistent shapes and fail with
    a dimension mismatch otherwise, which verde raises as a [ValueError].
    The arrays are returned as they came. *)
Definition check_fit_input (coordinates : coords) (data : ndarray) (weights : option ndarray)
  : M world (coords * ndarray * option ndarray) :=
  let '(east, north, vertical) := coordinates in
  if list_eq_dec Nat.eq_dec (shape north) (shape east) then
    if list_eq_dec Nat.eq_dec (shape vertical) (shape east) then
      if list_eq_dec Nat.eq_dec (shape data) (shape east) then
        match weights with
        | None => ret (coordinates, data, weights)
        | Some w =>
            if list_eq_dec Nat.eq_dec (shape w) (shape data)
            then ret (coordinates, data, weights)
            else raise ValueError
        end
      else raise ValueError
    else raise ValueError
  else raise ValueError.

(** The attributes [check_is_fitted] can be asked about. *)
Inductive attribute : Type := Region_ | Points_ | Coefs_.

Definition hasattr (s : HarmonicEQL) (a : attribute) : bool :=
  match a with
  | Region_ => match region_ s with Some _ => true | None => false end
  | Points_ => match points_ s with Some _ => true | None => false end
  | Coefs_ => match coefs_ s with Some _ => true | None => false end
  end.

(** Modelled from the spec: sklearn's [check_is_fitted] is not part of the
    sources; the spec (sections 4.5 and 7) has the guard fail with NotFitted
    when the named fitted attributes do not exist. *)
Definition check_is_fitted (attributes : list attribute) : M world unit :=
  w <- get ;;
  if forallb (hasattr (self w)) attributes then ret tt else raise NotFittedError.

(** ** The methods of HarmonicEQL *)

Section Methods.

Context {ext : Collaborators}.

Definition jacobian (coordinates points : coords) : M world ndarray :=
  let n_data := size (fst (fst coordinates)) in
  let n_points := size (fst (fst points)) in
  jac <- np_zeros [n_data; n_points] ;;
  xs <- load_columns coordinates ;;
  ps <- load_columns points ;;
  with_buffer jac (jacobian_numba xs ps (shape jac)) ;;
  ret jac.

(** [least_squares(jacobian, data, weights, self.damping)]: the solver
    reads its arguments and returns a new array. *)
Definition call_least_squares (jacobian data : ndarray) (weights : option ndarray)
           (damping : option R) : M world ndarray :=
  j <- load jacobian ;;
  d <- load data ;;
  w <- match weights with
       | None => ret None
       | Some a => v <- load a ;; ret (Some v)
       end ;;
  match least_squares (shape jacobian) j d w damping with
  | inl e => raise (LeastSquaresError e)
  | inr c => l <- alloc c ;; ret (mk_ndarray l [length c])
  end.

Definition fit (coordinates : coords) (data : ndarray) (weights : option ndarray)
  : M world unit :=
  checked <- check_fit_input coordinates data weights ;;
  let '(coordinates, data, weights) := checked in
  let '(east, north, vertical) := coordinates in
  (* Capture the data region to use as a default when gridding. *)
  e <- load east ;;
  n <- load north ;;
  setattr (set_region_ (get_region e n)) ;;
  let coordinates :=
    (ravel (atleast_1d east), ravel (atleast_1d north), ravel (atleast_1d vertical)) in
  this <- get ;;
  match points (self this) with
  | None =>
      (* Put a single point source bellow each observation point at a
         depth three times the distance to the nearest observation point. *)
      let '(c0, c1, c2) := coordinates in
      nearest_distances <- np_zeros [size c0] ;;
      xs <- load_columns coordinates ;;
      with_buffer nearest_distances (distance_to_nearest_point xs) ;;
      point_east <- copy (ravel (atleast_1d c0)) ;;
      point_north <- copy (ravel (atleast_1d c1)) ;;
      point_vertical <- copy (ravel (atleast_1d c2)) ;;
      scaled <- scalar_mul (depth_factor (self this)) nearest_distances ;;
      isub point_vertical scaled ;;
      setattr (set_points_ (point_east, point_north, point_vertical))
  | Some (p0, p1, p2) =>
      setattr (set_points_
                 (ravel (atleast_1d p0), ravel (atleast_1d p1), ravel (atleast_1d p2)))
  end ;;
  fitted_points <- getattr points_ ;;
  jacobian <- jacobian coordinates fitted_points ;;
  coefs <- call_least_squares jacobian data weights (damping (self this)) ;;
  setattr (set_coefs_ coefs).

Definition predict (coordinates : coords) : M world ndarray :=
  (* We know the gridder has been fitted if it has the coefs_ *)
  check_is_fitted [Coefs_] ;;
  shape <- np_broadcast_shape coordinates ;;
  size <- np_broadcast_size coordinates ;;
  (* dtype = coordinates[0].dtype: every array of the model is float64 *)
  let '(east, north, vertical) := coordinates in
  let coordinates :=
    (ravel (atleast_1d east), ravel (atleast_1d north), ravel (atleast_1d vertical)) in
  data <- np_zeros [size] ;;
  fitted_points <- getattr points_ ;;
  coefs <- getattr coefs_ ;;
  xs <- load_columns coordinates ;;
  ps <- load_columns fitted_points ;;
  cs <- load coefs ;;
  with_buffer data (predict_numba xs ps cs) ;;
  reshape data shape.

End Methods.

(** ** Vocabulary of the statements *)

(** The distance between points [i] and [j] of two coordinate triples. *)
Definition pair_distance (xs ps : columns) (i j : nat) : R :=
  let '(east, north, vertical) := xs in
  let '(point_east, point_north, point_vertical) := ps in
  distance east.[i] north.[i] vertical.[i]
           point_east.[j] point_north.[j] point_vertical.[j].

(** The value [distance_to_nearest_point] starts observation [i] with. *)
Definition seed (xs : columns) (i : nat) : R :=
  let '(east, north, vertical) := xs in
  distance east.[i] north.[i] vertical.[i]
           (getitem east (Z.of_nat i - 1))
           (getitem north (Z.of_nat i - 1))
           (getitem vertical (Z.of_nat i - 1)).

(** One turn of its inner loop on the running minimum [cur]. *)
Definition scan (xs : columns) (i : nat) (cur : R) (j : nat) : R :=
  if negb (i =? j)%nat then
    if Rlt_dec (pair_distance xs xs i j) cur then pair_distance xs xs i j else cur
  else cur.

(** What it leaves in [distances[i]]. *)
Definition nearest (xs : columns) (i : nat) : R :=
  let '(east, _, _) := xs in
  fold_left (scan xs i) (seq 0 (length east)) (seed xs i).

(** [m] is the least distance from observation [i] to another of the [n]
    observations. *)
Definition is_min_distance (xs : columns) (n i : nat) (m : R) : Prop :=
  (exists j, (j < n)%nat /\ j <> i /\ m = pair_distance xs xs i j) /\
  (forall j, (j < n)%nat -> j <> i -> m <= pair_distance xs xs i j).

Definition sum_list (l : list R) : R := fold_right Rplus 0 l.

(** The kernel sum of the sources [ps] with coefficients [cs] at query
    point [i]. *)
Definition kernel_sum (xs ps : columns) (cs : list R) (i : nat) : R :=
  let '(point_east, _, _) := ps in
  sum_list (map (fun j => cs.[j] * (1 / pair_distance xs ps i j))
                (seq 0 (length point_east))).

(** The array [a] exists in the store [h] and its buffer has the length
    of its shape. *)
Definition valid (h : list (list R)) (a : ndarray) : Prop :=
  (buffer a < length h)%nat /\ length (contents h a) = size a.

Definition valid_coords (h : list (list R)) (c : coords) : Prop :=
  let '(a1, a2, a3) := c in valid h a1 /\ valid h a2 /\ valid h a3.

Definition columns_of (h : list (list R)) (c : coords) : columns :=
  let '(a1, a2, a3) := c in (contents h a1, contents h a2, contents h a3).

(** A property of an attribute or argument that may be absent. *)
Definition valid_option {A : Type} (P : A -> Prop) (o : option A) : Prop :=
  match o with
  | Some a => P a
  | None => True
  end.

Definition allocated (h : list (list R)) (a : ndarray) : Prop :=
  (buffer a < length h)%nat.

(** The contents of the sources that [fit] derives from the observations
    [xs] with depth factor [f]. *)
Definition default_sources (xs : columns) (f : R) : columns :=
  let '(east, north, vertical) := xs in
  (east, north,
   zip_minus vertical (map (Rmult f) (map (nearest xs) (seq 0 (length east))))).

(** The three arrays are 1-d arrays of [n] entries. *)
Definition shapes_1d (c : coords) (n : nat) : Prop :=
  let '(a1, a2, a3) := c in shape a1 = [n] /\ shape a2 = [n] /\ shape a3 = [n].

(** The three arrays have [n] entries each. *)
Definition sizes_eq (c : coords) (n : nat) : Prop :=
  let '(a1, a2, a3) := c in size a1 = n /\ size a2 = n /\ size a3 = n.

(** The three arrays have the shape [s]. *)
Definition shapes_eq (c : coords) (s : list nat) : Prop :=
  let '(a1, a2, a3) := c in shape a1 = s /\ shape a2 = s /\ shape a3 = s.

(** The shapes [check_fit_input] accepts. *)
Definition consistent (c : coords) (data : ndarray) (weights : option ndarray) : Prop :=
  let '(east, north, vertical) := c in
  shape north = shape east /\ shape vertical = shape east /\ shape data = shape east /\
  valid_option (fun w => shape w = shape data) weights.

(** The 1-d views [fit] and [predict] take of a tuple of coordinates. *)
Definition ravelled (c : coords) : coords :=
  let '(a1, a2, a3) := c in
  (ravel (atleast_1d a1), ravel (atleast_1d a2), ravel (atleast_1d a3)).

(** The statements of [fit] that follow the choice of the sources. *)
Definition fit_tail {ext : Collaborators} (coordinates : coords) (data : ndarray)
           (weights : option ndarray) (damping : option R) : M world unit :=
  fitted_points <- getattr points_ ;;
  jacobian <- jacobian coordinates fitted_points ;;
  coefs <- call_least_squares jacobian data weights damping ;;
  setattr (set_coefs_ coefs).

(** The coefficients [cf] of the world [w'] are what the solver returned
    for the data and weights of a call made in the world [w]. *)
Definition solved {ext : Collaborators} (w : world) (data : ndarray)
           (weights : option ndarray) (w' : world) (cf : ndarray) : Prop :=
  exists sh J,
    least_squares sh J (contents (heap w) data) (option_map (contents (heap w)) weights)
                  (damping (self w))
    = inr (contents (heap w') cf).

(** The worlds an estimator can be in while no call of [fit] has returned:
    it was created, and since then the caller changed arrays or
    parameters, or called methods, of which every [fit] raised. *)
Inductive never_fitted {ext : Collaborators} : world -> Prop :=
| nf_init : forall damping points depth_factor h,
    never_fitted (mk_world (__init__ damping points depth_factor) h)
| nf_store : forall w h, never_fitted w -> never_fitted (mk_world (self w) h)
| nf_params : forall w d p f,
    never_fitted w ->
    never_fitted
      (mk_world
         (mk_HarmonicEQL d p f (region_ (self w)) (points_ (self w)) (coefs_ (self w)))
         (heap w))
| nf_fit : forall w c data weights e,
    never_fitted w ->
    snd (fit c data weights w) = inl e ->
    never_fitted (fst (fit c data weights w))
| nf_predict : forall w c, never_fitted w -> never_fitted (fst (predict c w))
| nf_jacobian : forall w c p, never_fitted w -> never_fitted (fst (jacobian c p w)).

(** The sources [ps] that a call of [fit] on the coordinates [c], made in
    the world [w], leaves in the world [w']: views of the arrays the caller
    gave the estimator, or new arrays that hold the default sources. *)
Definition sources_of_call (w : world) (c : coords) (w' : world) (ps : coords) : Prop :=
  match points (self w) with
  | Some p => ps = ravelled p
  | None =>
      let '(pe, pn, pv) := ps in
      (length (heap w) <= buffer pe)%nat /\
      (length (heap w) <= buffer pn)%nat /\
      (length (heap w) <= buffer pv)%nat /\
      columns_of (heap w') ps
      = default_sources (columns_of (heap w) c) (depth_factor (self w))
  end.

(** ** Example data *)

Definition min_list (l : list R) : R := fold_right Rmin (hd 0 l) l.

Definition max_list (l : list R) : R := fold_right Rmax (hd 0 l) l.

(** Collaborators to run the examples with: the bounding box of the data,
    and a solver that rejects every system without damping as singular and
    answers a damped one with unit coefficients. *)
Definition cautious : Collaborators :=
  {| get_region := fun e n => (min_list e, max_list e, min_list n, max_list n);
     least_squares := fun sh _ _ _ dmp =>
       match dmp with
       | None => inl SingularSystem
       | Some _ => inr (repeat 1 (nth 1 sh 0%nat))
       end |}.

(** Scenario A of the spec: observations at (0,0,0), (1,0,0) and (2,0,0)
    with values 1, 0.5 and 1, and one source at (1,0,-1) given by the
    caller.  The estimator was fitted before, with damping, on data between
    the eastings 5 and 6, and has no damping now. *)
Definition store_A : list (list R) :=
  [[1]; [0]; [-1]; [0; 1; 2]; [0; 0; 0]; [0; 0; 0]; [1; 1 / 2; 1]; [1]].

Definition sources_A : coords :=
  ((mk_ndarray 0 [1])%nat, (mk_ndarray 1 [1])%nat, (mk_ndarray 2 [1])%nat).

Definition observations_A : coords :=
  ((mk_ndarray 3 [3])%nat, (mk_ndarray 4 [3])%nat, (mk_ndarray 5 [3])%nat).

Definition data_A : ndarray := (mk_ndarray 6 [3])%nat.

Definition coefs_A : ndarray := (mk_ndarray 7 [1])%nat.

Definition world_A : world :=
  mk_world
    (mk_HarmonicEQL None (Some sources_A) 3
       (Some (5, 6, 0, 0)) (Some (ravelled sources_A)) (Some coefs_A))
    store_A.

(** The same arrays with an estimator that was only created. *)
Definition world_A0 : world := mk_world (__init__ None (Some sources_A) 3) store_A.

(** Scenario B of the spec: observations at (0,0,0) and (10,0,0), depth
    factor 3, default sources. *)
Definition store_B : list (list R) := [[0; 10]; [0; 0]; [0; 0]; [1; 1]].

Definition observations_B : coords :=
  ((mk_ndarray 0 [2])%nat, (mk_ndarray 1 [2])%nat, (mk_ndarray 2 [2])%nat).

Definition data_B : ndarray := (mk_ndarray 3 [2])%nat.

Definition world_B : world := mk_world (__init__ None None 3) store_B.

(** One observation, at (0,0,0), depth factor 3, default sources. *)
Definition store_1 : list (list R) := [[0]; [0]; [0]; [1]].

Definition observations_1 : coords :=
  ((mk_ndarray 0 [1])%nat, (mk_ndarray 1 [1])%nat, (mk_ndarray 2 [1])%nat).

Definition data_1 : ndarray := (mk_ndarray 3 [1])%nat.

Definition world_1 : world := mk_world (__init__ None None 3) store_1.

(** Query arrays for the estimator of scenario A, at the point (0,0,0):
    two 1-d arrays of two points each (buffers 8 to 10), and three arrays of
    two points each with the shapes (2,1), (1,2) and (2,1), which numpy
    broadcasts to (2,2). *)
Definition store_Q : list (list R) := store_A ++ [[0; 0]; [0; 0]; [0; 0]].

Definition world_Q : world := mk_world (self world_A) store_Q.

Definition queries_flat : coords :=
  ((mk_ndarray 8 [2])%nat, (mk_ndarray 9 [2])%nat, (mk_ndarray 10 [2])%nat).

Definition queries_crossed : coords :=
  ((mk_ndarray 8 [2; 1])%nat, (mk_ndarray 9 [1; 2])%nat, (mk_ndarray 10 [2; 1])%nat).


(** The four query points that numpy's broadcasting makes of
    [queries_crossed]: each is (0,0,0). *)
Definition crossed_points : columns := ([0; 0; 0; 0], [0; 0; 0; 0], [0; 0; 0; 0]).

(** Observations [i] and [j] of a coordinate triple are the same point. *)
Definition same_point (xs : columns) (i j : nat) : Prop :=
  let '(east, north, vertical) := xs in
  east.[i] = east.[j] /\ north.[i] = north.[j] /\ vertical.[i] = vertical.[j].

(** The three columns have [n] entries each. *)
Definition columns_length (xs : columns) (n : nat) : Prop :=
  let '(east, north, vertical) := xs in
  length east = n /\ length north = n /\ length vertical = n.

(** The default sources cannot be told from the observations: there is one
    observation only, or the depth factor is zero, or two observations are
    the same point. *)
Definition degenerate (xs : columns) (n : nat) (f : R) : Prop :=
  n = 1%nat \/ ((1 <= n)%nat /\ f = 0) \/
  exists i j, (i < n)%nat /\ (j < n)%nat /\ i <> j /\ same_point xs i j.

(** Scenario A with an estimator that was only created, with damping. *)
Definition world_A_damped : world :=
  mk_world (__init__ (Some 1) (Some sources_A) 3) store_A.

(** A method leaves [f] of the estimator as it was, whatever its outcome. *)
Definition preserves {A B : Type} (f : HarmonicEQL -> B) (m : M world A) : Prop :=
  forall w, f (self (fst (m w))) = f (self w).

(** A method leaves [f] of the estimator as it was when it raises. *)
Definition preserves_on_error {A B : Type} (f : HarmonicEQL -> B) (m : M world A) : Prop :=
  forall w e, snd (m w) = inl e -> f (self (fst (m w))) = f (self w).

(** The second store keeps every buffer of the first. *)
Definition extends (h h' : list (list R)) : Prop := exists t, h' = h ++ t.

(** Two outcomes of a method that returns an array: the same exception, or
    arrays of one shape and the same contents, each read in its store. *)
Definition same_output (h1 : list (list R)) (r1 : exn + ndarray)
           (h2 : list (list R)) (r2 : exn + ndarray) : Prop :=
  match r1, r2 with
  | inl e1, inl e2 => e1 = e2
  | inr a1, inr a2 => shape a1 = shape a2 /\ contents h1 a1 = contents h2 a2
  | _, _ => False
  end.

(** ** Facts about the kernel *)

Lemma sum_sq_nonneg (a b c : R) : 0 <= a ^ 2 + b ^ 2 + c ^ 2.
Proof. nra. Qed.

Lemma distance_nonneg (e1 n1 v1 e2 n2 v2 : R) : 0 <= distance e1 n1 v1 e2 n2 v2.
Proof. unfold distance. apply sqrt_pos. Qed.

Lemma distance_sym (e1 n1 v1 e2 n2 v2 : R) :
  distance e1 n1 v1 e2 n2 v2 = distance e2 n2 v2 e1 n1 v1.
Proof. unfold distance. f_equal. ring. Qed.

Lemma distance_self (e n v : R) : distance e n v e n v = 0.
Proof.
  unfold distance.
  replace ((e - e) ^ 2 + (n - n) ^ 2 + (v - v) ^ 2) with 0 by ring.
  apply sqrt_0.
Qed.

Lemma distance_zero_inv (e1 n1 v1 e2 n2 v2 : R) :
  distance e1 n1 v1 e2 n2 v2 = 0 -> e1 = e2 /\ n1 = n2 /\ v1 = v2.
Proof.
  unfold distance. intros H.
  apply sqrt_eq_0 in H; [ | apply sum_sq_nonneg ].
  pose proof (pow2_ge_0 (e1 - e2)) as He.
  pose proof (pow2_ge_0 (n1 - n2)) as Hn.
  pose proof (pow2_ge_0 (v1 - v2)) as Hv.
  repeat split; apply Rminus_diag_uniq, Rsqr_0_uniq; rewrite Rsqr_pow2; lra.
Qed.

Lemma greens_func_ok (e1 n1 v1 e2 n2 v2 : R) :
  distance e1 n1 v1 e2 n2 v2 <> 0 ->
  greens_func e1 n1 v1 e2 n2 v2 = inr (1 / distance e1 n1 v1 e2 n2 v2).
Proof.
  intros H. unfold greens_func.
  destruct (Req_dec_T (distance e1 n1 v1 e2 n2 v2) 0); [ contradiction | reflexivity ].
Qed.

Lemma greens_func_zero (e1 n1 v1 e2 n2 v2 : R) :
  distance e1 n1 v1 e2 n2 v2 = 0 ->
  greens_func e1 n1 v1 e2 n2 v2 = inl ZeroDivisionError.
Proof.
  intros H. unfold greens_func.
  destruct (Req_dec_T (distance e1 n1 v1 e2 n2 v2) 0); [ reflexivity | contradiction ].
Qed.

(** C8, amended: the distance between two 3D points is non-negative, zero
    from a point to itself, and symmetric; it is zero whenever the two
    points are equal.  (It is not zero only then: see
    [distance64_underflow].) *)
Theorem distance_properties (P Q : point) :
  0 <= point_distance P Q /\ point_distance P P = 0 /\
  point_distance P Q = point_distance Q P /\
  (P = Q -> point_distance P Q = 0).
Proof.
  destruct P as [[e1 n1] v1], Q as [[e2 n2] v2]. simpl.
  split; [ apply distance_nonneg | ].
  split; [ apply distance_self | ].
  split; [ apply distance_sym | ].
  intros H. injection H as -> -> ->. apply distance_self.
Qed.

(** C8, counterexample: the points (2^-600, 0, 0) and (0, 0, 0) differ, and
    in binary64 their distance is 0.0: the square of 2^-600 underflows. *)
Lemma distance64_underflow :
  PrimFloat.eqb Binary64.tiny Binary64.origin = false /\
  PrimFloat.eqb
    (Binary64.distance64 Binary64.tiny Binary64.origin Binary64.origin
                         Binary64.origin Binary64.origin Binary64.origin)
    Binary64.origin = true.
Proof. split; vm_compute; reflexivity. Qed.

(** C9, amended: for all points P and Q the Green's function has the same
    outcome at (P, Q) and at (Q, P): the same value, the inverse of the
    distance, when the distance is not zero, and ZeroDivisionError when it
    is zero.  (That happens for some distinct points too: see
    [greens_func64_raises_on_distinct].) *)
Theorem greens_outcome_symmetric (P Q : point) :
  point_greens P Q = point_greens Q P /\
  (point_distance P Q <> 0 -> point_greens P Q = inr (1 / point_distance P Q)) /\
  (point_distance P Q = 0 -> point_greens P Q = inl ZeroDivisionError).
Proof.
  destruct P as [[e1 n1] v1], Q as [[e2 n2] v2]. simpl.
  split; [ | split; [ apply greens_func_ok | apply greens_func_zero ] ].
  unfold greens_func. rewrite (distance_sym e2 n2 v2 e1 n1 v1). reflexivity.
Qed.

(** C9, counterexample: at the distinct points (2^-600, 0, 0) and (0, 0, 0)
    the Green's function, evaluated in binary64, is not a value that could
    be compared: it raises ZeroDivisionError, in both orders. *)
Lemma greens_func64_raises_on_distinct :
  PrimFloat.eqb Binary64.tiny Binary64.origin = false /\
  Binary64.greens_func64 Binary64.tiny Binary64.origin Binary64.origin
                         Binary64.origin Binary64.origin Binary64.origin
  = inl ZeroDivisionError /\
  Binary64.greens_func64 Binary64.origin Binary64.origin Binary64.origin
                         Binary64.tiny Binary64.origin Binary64.origin
  = inl ZeroDivisionError.
Proof. repeat split; vm_compute; reflexivity. Qed.


(** ** Facts about buffers and loops *)

Lemma bind_modify {S B : Type} (f : S -> S) (k : unit -> M S B) (s : S) :
  bind (modify f) k s = k tt (f s).
Proof. reflexivity. Qed.

Lemma bind_ret {S A B : Type} (a : A) (k : A -> M S B) (s : S) :
  bind (ret a) k s = k a s.
Proof. reflexivity. Qed.

Lemma bind_get {S B : Type} (k : S -> M S B) (s : S) : bind get k s = k s s.
Proof. reflexivity. Qed.

Lemma bind_lift_ok {S A B : Type} (a : A) (k : A -> M S B) (s : S) :
  bind (lift (inr a)) k s = k a s.
Proof. reflexivity. Qed.

Lemma length_list_set {A : Type} (i : nat) (v : A) (l : list A) :
  length (list_set i v l) = length l.
Proof.
  revert i. induction l as [ | x l IH ]; intros [ | i ]; simpl; auto.
Qed.

Lemma nth_list_set_eq {A : Type} (i : nat) (v d : A) (l : list A) :
  (i < length l)%nat -> nth i (list_set i v l) d = v.
Proof.
  revert i. induction l as [ | x l IH ]; intros [ | i ] H; simpl in *; try lia; auto.
  apply IH. lia.
Qed.

Lemma nth_list_set_ne {A : Type} (i j : nat) (v d : A) (l : list A) :
  i <> j -> nth j (list_set i v l) d = nth j l d.
Proof.
  revert i j. induction l as [ | x l IH ]; intros [ | i ] [ | j ] H; simpl; auto; try lia.
Qed.

Lemma list_set_app_l {A : Type} (i : nat) (v : A) (l t : list A) :
  (i < length l)%nat -> list_set i v (l ++ t) = list_set i v l ++ t.
Proof.
  revert i. induction l as [ | x l IH ]; intros [ | i ] H; simpl in *; try lia; auto.
  f_equal. apply IH. lia.
Qed.

Lemma list_set_app_r {A : Type} (i : nat) (v : A) (l t : list A) :
  list_set (length l + i) v (l ++ t) = l ++ list_set i v t.
Proof.
  induction l as [ | x l IH ]; simpl; [ reflexivity | now rewrite IH ].
Qed.

Lemma list_set_same (i : nat) (l : list R) : list_set i l.[i] l = l.
Proof.
  revert i. induction l as [ | x l IH ]; intros [ | i ]; simpl; auto.
  now rewrite IH.
Qed.

Lemma list_set_twice {A : Type} (i : nat) (u v : A) (l : list A) :
  list_set i v (list_set i u l) = list_set i v l.
Proof.
  revert i. induction l as [ | x l IH ]; intros [ | i ]; simpl; auto.
  now rewrite IH.
Qed.

(** A loop whose turn [i] rewrites only entry [i] of the buffer, from the
    value that entry had. *)
Lemma for_in_pointwise (body : nat -> M (list R) unit) (F : nat -> R -> R) (P : nat -> Prop) :
  (forall i buf, P i -> (i < length buf)%nat ->
                 body i buf = (list_set i (F i buf.[i]) buf, inr tt)) ->
  forall l buf,
    NoDup l -> (forall i, In i l -> P i /\ (i < length buf)%nat) ->
    exists buf',
      for_in l body buf = (buf', inr tt) /\
      length buf' = length buf /\
      (forall i, In i l -> buf'.[i] = F i buf.[i]) /\
      (forall i, ~ In i l -> buf'.[i] = buf.[i]).
Proof.
  intros Hbody l. induction l as [ | i l IH ]; intros buf Hnd Hlt.
  - exists buf. simpl. repeat split; auto. intros i [].
  - inversion Hnd as [ | ? ? Hni Hnd' ]; subst.
    assert (Hi : P i /\ (i < length buf)%nat) by (apply Hlt; now left).
    destruct Hi as (HP & Hi).
    destruct (IH (list_set i (F i buf.[i]) buf) Hnd') as (buf' & Hrun & Hlen & Hin & Hout).
    { intros k Hk. rewrite length_list_set. apply Hlt. now right. }
    exists buf'. simpl. unfold bind. rewrite (Hbody i buf HP Hi), Hrun.
    rewrite length_list_set in Hlen.
    split; [ reflexivity | ]. split; [ exact Hlen | ]. split.
    + intros k [ <- | Hk ].
      * rewrite (Hout i Hni). now apply nth_list_set_eq.
      * rewrite (Hin k Hk). rewrite nth_list_set_ne; [ reflexivity | ].
        intros ->. contradiction.
    + intros k Hk. rewrite Hout by (intros H; apply Hk; now right).
      apply nth_list_set_ne. intros ->. apply Hk. now left.
Qed.

(** ** The nearest-neighbour kernel *)

Lemma nearest_inner (xs : columns) (i : nat) (js : list nat) (buf : list R) :
  let '(east, north, vertical) := xs in
  (i < length buf)%nat ->
  for_in js
    (fun j =>
       if negb (i =? j)%nat then
         let dist :=
           distance east.[i] north.[i] vertical.[i] east.[j] north.[j] vertical.[j] in
         distances <- get ;;
         if Rlt_dec dist distances.[i] then modify (list_set i dist) else ret tt
       else ret tt) buf
  = (list_set i (fold_left (scan xs i) js buf.[i]) buf, inr tt).
Proof.
  destruct xs as [[east north] vertical]. revert buf.
  induction js as [ | j js IH ]; intros buf Hi.
  - simpl. now rewrite list_set_same.
  - simpl. unfold bind at 1. unfold scan at 2. unfold pair_distance.
    destruct (negb (i =? j)%nat); simpl.
    + unfold bind, get.
      destruct (Rlt_dec _ _) as [ Hlt | Hge ]; simpl.
      * unfold modify. rewrite IH by (now rewrite length_list_set).
        rewrite nth_list_set_eq by assumption. now rewrite list_set_twice.
      * unfold ret. now rewrite IH.
    + unfold ret. now rewrite IH.
Qed.

Lemma distance_to_nearest_point_run (xs : columns) (buf : list R) :
  length buf = length (fst (fst xs)) ->
  distance_to_nearest_point xs buf
  = (map (nearest xs) (seq 0 (length (fst (fst xs)))), inr tt).
Proof.
  destruct xs as [[east north] vertical]. simpl. intros Hlen.
  unfold distance_to_nearest_point, for_range.
  match goal with |- for_in _ ?b _ = _ => set (body := b) end.
  destruct (for_in_pointwise body (fun i _ => nearest (east, north, vertical) i)
              (fun _ => True))
    with (l := seq 0 (length east)) (buf := buf)
    as (buf' & Hrun & Hlen' & Hin & _).
  - intros i b _ Hi. unfold body. rewrite bind_modify.
    pose proof (nearest_inner (east, north, vertical) i (seq 0 (length east))
                  (list_set i (seed (east, north, vertical) i) b)) as Hinner.
    cbv beta iota zeta in Hinner. unfold for_range.
    fold (seed (east, north, vertical) i).
    rewrite Hinner by (now rewrite length_list_set).
    rewrite nth_list_set_eq by assumption. now rewrite list_set_twice.
  - apply seq_NoDup.
  - intros i Hi. apply in_seq in Hi. split; [ exact I | lia ].
  - rewrite Hrun. f_equal.
    apply nth_ext with (d := 0) (d' := 0).
    + rewrite length_map, length_seq. congruence.
    + intros i Hi.
      assert (Hi' : (i < length east)%nat) by congruence.
      rewrite Hin by (apply in_seq; lia).
      rewrite (nth_indep (map _ _) 0 (nearest (east, north, vertical) 0%nat))
        by (rewrite length_map, length_seq; lia).
      rewrite map_nth, seq_nth by lia. reflexivity.
Qed.

(** The running minimum is the start value or a distance to another
    observation, and it is below all of them. *)
Lemma scan_fold (xs : columns) (i : nat) (js : list nat) (cur : R) :
  let m := fold_left (scan xs i) js cur in
  (m = cur \/ exists j, In j js /\ j <> i /\ m = pair_distance xs xs i j) /\
  m <= cur /\
  (forall j, In j js -> j <> i -> m <= pair_distance xs xs i j).
Proof.
  revert cur. induction js as [ | j js IH ]; intros cur; simpl.
  - split; [ now left | ]. split; [ lra | intros j [] ].
  - destruct (IH (scan xs i cur j)) as (Hval & Hle & Hall).
    assert (Hscan : (scan xs i cur j = cur \/
                     (j <> i /\ scan xs i cur j = pair_distance xs xs i j)) /\
                    scan xs i cur j <= cur /\
                    (j <> i -> scan xs i cur j <= pair_distance xs xs i j)).
    { unfold scan. destruct (Nat.eqb_spec i j) as [ -> | Hij ]; simpl.
      - split; [ now left | ]. split; [ lra | intros H; now contradiction H ].
      - destruct (Rlt_dec (pair_distance xs xs i j) cur) as [ Hlt | Hge ].
        + split; [ right; split; [ congruence | reflexivity ] | ]. split; lra.
        + split; [ now left | ]. split; [ lra | intros _; lra ]. }
    destruct Hscan as (Hs1 & Hs2 & Hs3).
    split; [ | split ].
    + destruct Hval as [ Hval | (k & Hk & Hki & Hval) ].
      * destruct Hs1 as [ Hs1 | (Hji & Hs1) ].
        -- left. congruence.
        -- right. exists j. split; [ now left | ]. split; [ exact Hji | congruence ].
      * right. exists k. split; [ now right | ]. split; assumption.
    + lra.
    + intros k [ <- | Hk ] Hki.
      * specialize (Hs3 Hki). lra.
      * now apply Hall.
Qed.

(** Index [i - 1], with Python's wrap-around for [i = 0]. *)
Lemma getitem_pred (a : list R) (i : nat) :
  (i < length a)%nat ->
  getitem a (Z.of_nat i - 1) = a.[if (i =? 0)%nat then (length a - 1)%nat else (i - 1)%nat].
Proof.
  intros Hi. unfold getitem.
  destruct (Nat.eqb_spec i 0) as [ -> | Hne ].
  - simpl. replace (Z.of_nat (length a) + -1)%Z with (Z.of_nat (length a - 1)) by lia.
    now rewrite Nat2Z.id.
  - destruct (Z.ltb_spec (Z.of_nat i - 1) 0) as [ Hneg | _ ]; [ lia | ].
    replace (Z.of_nat i - 1)%Z with (Z.of_nat (i - 1)) by lia.
    now rewrite Nat2Z.id.
Qed.

Lemma seed_pair_distance (xs : columns) (i : nat) :
  let '(east, north, vertical) := xs in
  length north = length east -> length vertical = length east ->
  (i < length east)%nat ->
  seed xs i
  = pair_distance xs xs i (if (i =? 0)%nat then (length east - 1)%nat else (i - 1)%nat).
Proof.
  destruct xs as [[east north] vertical]. intros Hn Hv Hi. unfold seed, pair_distance.
  rewrite !getitem_pred by congruence. now rewrite Hn, Hv.
Qed.

(** With two observations or more, the kernel leaves in entry [i] the least
    distance from observation [i] to another observation. *)
Lemma nearest_is_min (xs : columns) (i : nat) :
  let '(east, north, vertical) := xs in
  length north = length east -> length vertical = length east ->
  (2 <= length east)%nat -> (i < length east)%nat ->
  is_min_distance xs (length east) i (nearest xs i).
Proof.
  pose proof (seed_pair_distance xs i) as Hseed.
  pose proof (scan_fold xs i) as Hfold.
  destruct xs as [[east north] vertical]. intros Hn Hv H2 Hi.
  specialize (Hseed Hn Hv Hi).
  specialize (Hfold (seq 0 (length east)) (seed (east, north, vertical) i)).
  unfold nearest. cbv zeta in Hfold. destruct Hfold as (Hval & _ & Hall).
  split.
  - destruct Hval as [ Hval | (j & Hj & Hji & Hval) ].
    + exists (if (i =? 0)%nat then (length east - 1)%nat else (i - 1)%nat).
      split; [ destruct (Nat.eqb_spec i 0); lia | ].
      split; [ destruct (Nat.eqb_spec i 0); lia | ].
      rewrite Hval. exact Hseed.
    + exists j. apply in_seq in Hj. repeat split; [ lia | exact Hji | exact Hval ].
  - intros j Hj Hji. apply Hall; [ apply in_seq; lia | exact Hji ].
Qed.

(** ** The prediction kernel *)

Lemma fold_left_sum (t : nat -> R) (js : list nat) (a : R) :
  fold_left (fun acc j => acc + t j) js a = a + sum_list (map t js).
Proof.
  revert a. induction js as [ | j js IH ]; intros a; simpl.
  - lra.
  - rewrite IH. lra.
Qed.

Lemma predict_inner (xs ps : columns) (cs : list R) (i : nat) (js : list nat)
      (buf : list R) :
  let '(east, north, vertical) := xs in
  let '(point_east, point_north, point_vertical) := ps in
  (i < length buf)%nat ->
  (forall j, In j js -> pair_distance xs ps i j <> 0) ->
  for_in js
    (fun j =>
       result <- get ;;
       g <- lift (greens_func east.[i] north.[i] vertical.[i]
                    point_east.[j] point_north.[j] point_vertical.[j]) ;;
       modify (list_set i (result.[i] + cs.[j] * g))) buf
  = (list_set i
       (fold_left (fun acc j => acc + cs.[j] * (1 / pair_distance xs ps i j)) js buf.[i])
       buf, inr tt).
Proof.
  destruct xs as [[east north] vertical], ps as [[point_east point_north] point_vertical].
  revert buf. induction js as [ | j js IH ]; intros buf Hi Hd.
  - simpl. now rewrite list_set_same.
  - simpl. unfold bind at 1. rewrite bind_get.
    assert (Hj : pair_distance (east, north, vertical)
                   (point_east, point_north, point_vertical) i j <> 0)
      by (apply Hd; now left).
    unfold pair_distance in Hj. rewrite (greens_func_ok _ _ _ _ _ _ Hj).
    rewrite bind_lift_ok. unfold modify.
    rewrite IH; [ | now rewrite length_list_set | intros k Hk; apply Hd; now right ].
    rewrite nth_list_set_eq by assumption. now rewrite list_set_twice.
Qed.

(** With every query point away from every source, the kernel adds the
    kernel sum of query point [i] to entry [i], for each of the query
    points, and leaves the rest of the buffer as it was. *)
Lemma predict_numba_run (xs ps : columns) (cs buf : list R) :
  (length (fst (fst xs)) <= length buf)%nat ->
  (forall i j, (i < length (fst (fst xs)))%nat -> (j < length (fst (fst ps)))%nat ->
               pair_distance xs ps i j <> 0) ->
  exists buf',
    predict_numba xs ps cs buf = (buf', inr tt) /\
    length buf' = length buf /\
    (forall i, (i < length (fst (fst xs)))%nat ->
               buf'.[i] = buf.[i] + kernel_sum xs ps cs i) /\
    (forall i, (length (fst (fst xs)) <= i)%nat -> buf'.[i] = buf.[i]).
Proof.
  destruct xs as [[east north] vertical], ps as [[point_east point_north] point_vertical].
  simpl. intros Hlen Hd.
  unfold predict_numba, for_range.
  match goal with |- exists _, for_in _ ?b _ = _ /\ _ => set (body := b) end.
  set (xs := (east, north, vertical)). set (ps := (point_east, point_north, point_vertical)).
  destruct (for_in_pointwise body
              (fun i x => x + kernel_sum xs ps cs i)
              (fun i => (i < length east)%nat))
    with (l := seq 0 (length east)) (buf := buf)
    as (buf' & Hrun & Hlen' & Hin & Hout).
  - intros i b Hi Hb. unfold body.
    pose proof (predict_inner xs ps cs i (seq 0 (length point_east)) b) as Hinner.
    cbv beta iota zeta in Hinner. rewrite Hinner; [ | exact Hb | ].
    + rewrite fold_left_sum. reflexivity.
    + intros j Hj. apply in_seq in Hj. apply Hd; lia.
  - apply seq_NoDup.
  - intros i Hi. apply in_seq in Hi. lia.
  - exists buf'. split; [ exact Hrun | ]. split; [ exact Hlen' | ]. split.
    + intros i Hi. apply Hin. apply in_seq. lia.
    + intros i Hi. apply Hout. intros H. apply in_seq in H. lia.
Qed.

(** ** The Jacobian kernel *)

(** Writing [val k] at offset [idx k] for each key of a list: the last write
    at an offset wins, the other offsets keep their value. *)
Lemma fold_list_set_nth {K : Type} (idx : K -> nat) (val : K -> R) (ks : list K)
      (buf : list R) :
  (forall k, In k ks -> (idx k < length buf)%nat) ->
  (forall k k', In k ks -> In k' ks -> idx k = idx k' -> val k = val k') ->
  let buf' := fold_left (fun b k => list_set (idx k) (val k) b) ks buf in
  length buf' = length buf /\
  (forall k, In k ks -> buf'.[idx k] = val k) /\
  (forall o, (forall k, In k ks -> idx k <> o) -> buf'.[o] = buf.[o]).
Proof.
  induction ks as [ | k ks IH ] using rev_ind; intros Hlt Hinj; simpl.
  - repeat split; auto. intros k [].
  - rewrite fold_left_app. simpl.
    destruct IH as (Hlen & Hin & Hout).
    { intros k' Hk'. apply Hlt, in_or_app. now left. }
    { intros k1 k2 H1 H2. apply Hinj; apply in_or_app; now left. }
    split; [ now rewrite length_list_set | ]. split.
    + intros k' Hk'.
      destruct (Nat.eq_dec (idx k) (idx k')) as [ Heq | Hne ].
      * rewrite <- Heq, nth_list_set_eq.
        -- apply Hinj; [ apply in_or_app; right; now left | exact Hk' | exact Heq ].
        -- rewrite Hlen. apply Hlt, in_or_app. right. now left.
      * rewrite nth_list_set_ne by exact Hne.
        apply in_app_or in Hk'. destruct Hk' as [ Hk' | [ <- | [] ] ].
        -- now apply Hin.
        -- contradiction.
    + intros o Ho. rewrite nth_list_set_ne.
      * apply Hout. intros k' Hk'. apply Ho, in_or_app. now left.
      * apply Ho, in_or_app. right. now left.
Qed.

Lemma fold_left_map {A B C : Type} (f : A -> C -> A) (g : B -> C) (l : list B) (a : A) :
  fold_left f (map g l) a = fold_left (fun x y => f x (g y)) l a.
Proof.
  revert a. induction l as [ | y l IH ]; intros a; simpl; auto.
Qed.

Lemma fold_left_list_prod {A : Type} (f : A -> nat * nat -> A) (rows cols : list nat)
      (a : A) :
  fold_left (fun b i => fold_left (fun b j => f b (i, j)) cols b) rows a
  = fold_left f (list_prod rows cols) a.
Proof.
  revert a. induction rows as [ | i rows IH ]; intros a; simpl.
  - reflexivity.
  - rewrite fold_left_app, fold_left_map. apply IH.
Qed.

Lemma jacobian_inner (xs ps : columns) (s : list nat) (i : nat) (js : list nat)
      (buf : list R) :
  let '(east, north, vertical) := xs in
  let '(point_east, point_north, point_vertical) := ps in
  (forall j, In j js -> pair_distance xs ps i j <> 0) ->
  for_in js
    (fun j =>
       g <- lift (greens_func east.[i] north.[i] vertical.[i]
                    point_east.[j] point_north.[j] point_vertical.[j]) ;;
       modify (list_set (offset2 s i j) g)) buf
  = (fold_left (fun b j => list_set (offset2 s i j) (1 / pair_distance xs ps i j) b) js buf,
     inr tt).
Proof.
  destruct xs as [[east north] vertical], ps as [[point_east point_north] point_vertical].
  revert buf. induction js as [ | j js IH ]; intros buf Hd.
  - reflexivity.
  - simpl. unfold bind at 1.
    assert (Hj : pair_distance (east, north, vertical)
                   (point_east, point_north, point_vertical) i j <> 0)
      by (apply Hd; now left).
    unfold pair_distance in Hj. rewrite (greens_func_ok _ _ _ _ _ _ Hj).
    rewrite bind_lift_ok. unfold modify.
    rewrite IH by (intros k Hk; apply Hd; now right). reflexivity.
Qed.

Lemma jacobian_outer (xs ps : columns) (s : list nat) (rows : list nat) (buf : list R) :
  let '(east, north, vertical) := xs in
  let '(point_east, point_north, point_vertical) := ps in
  (forall i j, In i rows -> (j < length point_east)%nat -> pair_distance xs ps i j <> 0) ->
  for_in rows
    (fun i =>
       for_range (length point_east)
         (fun j =>
            g <- lift (greens_func east.[i] north.[i] vertical.[i]
                         point_east.[j] point_north.[j] point_vertical.[j]) ;;
            modify (list_set (offset2 s i j) g))) buf
  = (fold_left
       (fun b k => list_set (offset2 s (fst k) (snd k))
                            (1 / pair_distance xs ps (fst k) (snd k)) b)
       (list_prod rows (seq 0 (length point_east))) buf,
     inr tt).
Proof.
  pose proof (jacobian_inner xs ps s) as Hinner.
  destruct xs as [[east north] vertical], ps as [[point_east point_north] point_vertical].
  revert buf. induction rows as [ | i rows IH ]; intros buf Hd.
  - reflexivity.
  - simpl. unfold bind at 1. unfold for_range at 1.
    rewrite Hinner by (intros j Hj; apply in_seq in Hj; apply Hd; [ now left | lia ]).
    rewrite IH by (intros k j Hk Hj; apply Hd; [ now right | exact Hj ]).
    rewrite fold_left_app, fold_left_map. reflexivity.
Qed.

Lemma offset2_inj (m i j i' j' : nat) :
  (j < m)%nat -> (j' < m)%nat -> (i * m + j = i' * m + j')%nat -> i = i' /\ j = j'.
Proof.
  intros Hj Hj' H.
  assert (Hi : i = i').
  { destruct (Nat.lt_trichotomy i i') as [ Hlt | [ Heq | Hgt ] ]; [ | exact Heq | ]; nia. }
  subst. lia.
Qed.

(** With every observation away from every source, the kernel fills an
    [n] by [m] buffer with the inverse distances, row by row. *)
Lemma jacobian_numba_run (xs ps : columns) (buf : list R) :
  let n := length (fst (fst xs)) in
  let m := length (fst (fst ps)) in
  length buf = (n * m)%nat ->
  (forall i j, (i < n)%nat -> (j < m)%nat -> pair_distance xs ps i j <> 0) ->
  exists buf',
    jacobian_numba xs ps [n; m] buf = (buf', inr tt) /\
    length buf' = (n * m)%nat /\
    (forall i j, (i < n)%nat -> (j < m)%nat ->
                 buf'.[offset2 [n; m] i j] = 1 / pair_distance xs ps i j).
Proof.
  pose proof (jacobian_outer xs ps) as Houter.
  destruct xs as [[east north] vertical], ps as [[point_east point_north] point_vertical].
  simpl. intros Hlen Hd.
  unfold jacobian_numba, for_range at 1.
  rewrite Houter by (intros i j Hi Hj; apply in_seq in Hi; apply Hd; lia).
  set (xs := (east, north, vertical)). set (ps := (point_east, point_north, point_vertical)).
  set (n := length east) in *. set (m := length point_east) in *.
  destruct (fold_list_set_nth
              (fun k => offset2 [n; m] (fst k) (snd k))
              (fun k => 1 / pair_distance xs ps (fst k) (snd k))
              (list_prod (seq 0 n) (seq 0 m)) buf) as (Hlen' & Hin & _).
  - intros [i j] Hk. apply in_prod_iff in Hk. destruct Hk as (Hi & Hj).
    apply in_seq in Hi, Hj. unfold offset2. simpl. nia.
  - intros [i j] [i' j'] Hk Hk' Heq.
    apply in_prod_iff in Hk, Hk'. destruct Hk as (_ & Hj), Hk' as (_ & Hj').
    apply in_seq in Hj, Hj'. unfold offset2 in Heq. simpl in Heq.
    apply offset2_inj in Heq; [ | lia | lia ]. destruct Heq as (-> & ->). reflexivity.
  - eexists. split; [ reflexivity | ]. split; [ now rewrite Hlen' | ].
    intros i j Hi Hj.
    apply (Hin (i, j)). apply in_prod_iff. split; apply in_seq; lia.
Qed.

(** ** The store *)

Lemma contents_app (h t : list (list R)) (a : ndarray) :
  (buffer a < length h)%nat -> contents (h ++ t) a = contents h a.
Proof. intros H. unfold contents. now apply app_nth1. Qed.

Lemma contents_new (h t : list (list R)) (v : list R) (s : list nat) :
  contents (h ++ v :: t) (mk_ndarray (length h) s) = v.
Proof. unfold contents. simpl. rewrite app_nth2, Nat.sub_diag by lia. reflexivity. Qed.

Lemma list_set_new {A : Type} (h t : list A) (x v : A) :
  list_set (length h) v (h ++ x :: t) = h ++ v :: t.
Proof.
  pose proof (list_set_app_r 0 v h (x :: t)) as H. now rewrite Nat.add_0_r in H.
Qed.

Lemma contents_view (h : list (list R)) (a : ndarray) (s : list nat) :
  contents h (mk_ndarray (buffer a) s) = contents h a.
Proof. reflexivity. Qed.

Lemma columns_of_app (h t : list (list R)) (c : coords) :
  valid_coords h c -> columns_of (h ++ t) c = columns_of h c.
Proof.
  destruct c as [[a1 a2] a3]. intros ((H1 & _) & (H2 & _) & (H3 & _)). simpl.
  now rewrite !contents_app.
Qed.

Lemma load_columns_run (c : coords) (w : world) :
  load_columns c w = (w, inr (columns_of (heap w) c)).
Proof. destruct c as [[a1 a2] a3]. reflexivity. Qed.

Lemma bind_load {B : Type} (a : ndarray) (k : list R -> M world B) (w : world) :
  bind (load a) k w = k (contents (heap w) a) w.
Proof. reflexivity. Qed.

Lemma bind_load_columns {B : Type} (c : coords) (k : columns -> M world B) (w : world) :
  bind (load_columns c) k w = k (columns_of (heap w) c) w.
Proof. unfold bind. now rewrite load_columns_run. Qed.

Lemma bind_np_zeros {B : Type} (s : list nat) (k : ndarray -> M world B) (w : world) :
  bind (np_zeros s) k w
  = k (mk_ndarray (length (heap w)) s)
      (mk_world (self w) (heap w ++ [repeat 0 (prod_shape s)])).
Proof. reflexivity. Qed.

Lemma bind_copy {B : Type} (a : ndarray) (k : ndarray -> M world B) (w : world) :
  bind (copy a) k w
  = k (mk_ndarray (length (heap w)) (shape a))
      (mk_world (self w) (heap w ++ [contents (heap w) a])).
Proof. reflexivity. Qed.

Lemma bind_scalar_mul {B : Type} (c : R) (a : ndarray) (k : ndarray -> M world B)
      (w : world) :
  bind (scalar_mul c a) k w
  = k (mk_ndarray (length (heap w)) (shape a))
      (mk_world (self w) (heap w ++ [map (Rmult c) (contents (heap w) a)])).
Proof. reflexivity. Qed.

Lemma bind_setattr {B : Type} (f : HarmonicEQL -> HarmonicEQL) (k : unit -> M world B)
      (w : world) :
  bind (setattr f) k w = k tt (mk_world (f (self w)) (heap w)).
Proof. reflexivity. Qed.

Lemma bind_with_buffer {A B : Type} (out : ndarray) (k0 : M (list R) A)
      (k : A -> M world B) (w : world) :
  bind (with_buffer out k0) k w
  = match snd (k0 (contents (heap w) out)) with
    | inr a =>
        k a (mk_world (self w)
               (list_set (buffer out) (fst (k0 (contents (heap w) out))) (heap w)))
    | inl e =>
        (mk_world (self w)
           (list_set (buffer out) (fst (k0 (contents (heap w) out))) (heap w)), inl e)
    end.
Proof.
  unfold bind, with_buffer. destruct (k0 (contents (heap w) out)) as [v [ e | a ]]; reflexivity.
Qed.

Lemma bind_isub {B : Type} (a b : ndarray) (k : unit -> M world B) (w : world) :
  shape a = shape b ->
  bind (isub a b) k w
  = k tt (mk_world (self w)
            (list_set (buffer a)
                      (zip_minus (contents (heap w) a) (contents (heap w) b)) (heap w))).
Proof.
  intros H. unfold isub.
  destruct (list_eq_dec Nat.eq_dec (shape a) (shape b)); [ reflexivity | contradiction ].
Qed.

Lemma contents_app_r (h t : list (list R)) (i : nat) (s : list nat) :
  contents (h ++ t) (mk_ndarray (length h + i)%nat s) = nth i t [].
Proof. unfold contents. cbn [buffer]. apply app_nth2_plus. Qed.

Lemma length_app_1 {A : Type} (h : list A) (x : A) :
  length (h ++ [x]) = (length h + 1)%nat.
Proof. now rewrite length_app. Qed.

Lemma length_app_2 {A : Type} (h : list A) (x y : A) :
  length (h ++ [x; y]) = (length h + 2)%nat.
Proof. now rewrite length_app. Qed.

Lemma length_app_3 {A : Type} (h : list A) (x y z : A) :
  length (h ++ [x; y; z]) = (length h + 3)%nat.
Proof. now rewrite length_app. Qed.

Lemma length_app_4 {A : Type} (h : list A) (x y z u : A) :
  length (h ++ [x; y; z; u]) = (length h + 4)%nat.
Proof. now rewrite length_app. Qed.

Lemma size_atleast_1d (a : ndarray) : size (atleast_1d a) = size a.
Proof. destruct a as [b [ | k s ]]; reflexivity. Qed.

Lemma ravel_atleast_1d (a : ndarray) :
  ravel (atleast_1d a) = mk_ndarray (buffer a) [size a].
Proof.
  unfold ravel. rewrite size_atleast_1d. f_equal.
  destruct a as [b [ | k s ]]; reflexivity.
Qed.

Lemma size_1d (l : loc) (n : nat) : size (mk_ndarray l [n]) = n.
Proof. unfold size, prod_shape. simpl. apply Nat.mul_1_r. Qed.

(** Normal form of the store after a step: one list appended to the store
    the method started from, and reads of older arrays resolved in it. *)
Ltac tidy_store :=
  cbn [self heap buffer shape];
  repeat rewrite <- app_assoc;
  cbn [app];
  rewrite ?contents_view;
  rewrite ?contents_app by assumption.

(** ** What the methods leave alone *)

Create HintDb frame.

Lemma preserves_bind {A B C : Type} (f : HarmonicEQL -> C) (m : M world A)
      (k : A -> M world B) :
  preserves f m -> (forall a, preserves f (k a)) -> preserves f (bind m k).
Proof.
  intros Hm Hk w. unfold bind. specialize (Hm w).
  destruct (m w) as [w1 [ e | a ]]; simpl in *; [ exact Hm | ].
  rewrite <- Hm. apply Hk.
Qed.

Lemma preserves_on_error_bind {A B C : Type} (f : HarmonicEQL -> C) (m : M world A)
      (k : A -> M world B) :
  preserves f m -> (forall a, preserves_on_error f (k a)) ->
  preserves_on_error f (bind m k).
Proof.
  intros Hm Hk w e. unfold bind. specialize (Hm w).
  destruct (m w) as [w1 [ e1 | a ]]; simpl in *; [ intros _; exact Hm | ].
  intros He. rewrite <- Hm. now apply (Hk a w1 e).
Qed.

Lemma preserves_weaken {A C : Type} (f : HarmonicEQL -> C) (m : M world A) :
  preserves f m -> preserves_on_error f m.
Proof. intros H w e _. apply H. Qed.

Lemma preserves_ret {A C : Type} (f : HarmonicEQL -> C) (a : A) : preserves f (ret a).
Proof. intros w. reflexivity. Qed.

Lemma preserves_raise {A C : Type} (f : HarmonicEQL -> C) (e : exn) :
  preserves f (@raise world A e).
Proof. intros w. reflexivity. Qed.

Lemma preserves_get {C : Type} (f : HarmonicEQL -> C) : preserves f get.
Proof. intros w. reflexivity. Qed.

Lemma preserves_load {C : Type} (f : HarmonicEQL -> C) (a : ndarray) : preserves f (load a).
Proof. intros w. reflexivity. Qed.

Lemma preserves_alloc {C : Type} (f : HarmonicEQL -> C) (v : list R) :
  preserves f (alloc v).
Proof. intros w. reflexivity. Qed.

Lemma preserves_with_buffer {A C : Type} (f : HarmonicEQL -> C) (out : ndarray)
      (k : M (list R) A) :
  preserves f (with_buffer out k).
Proof. intros w. unfold with_buffer. now destruct (k (contents (heap w) out)). Qed.

Lemma preserves_getattr {A C : Type} (f : HarmonicEQL -> C) (g : HarmonicEQL -> option A) :
  preserves f (getattr g).
Proof. intros w. unfold getattr. now destruct (g (self w)). Qed.

Lemma preserves_setattr {C : Type} (f : HarmonicEQL -> C) (g : HarmonicEQL -> HarmonicEQL) :
  (forall s, f (g s) = f s) -> preserves f (setattr g).
Proof. intros H w. simpl. apply H. Qed.

Lemma preserves_on_error_setattr {C : Type} (f : HarmonicEQL -> C)
      (g : HarmonicEQL -> HarmonicEQL) :
  preserves_on_error f (setattr g).
Proof. intros w e H. discriminate H. Qed.

#[export] Hint Resolve preserves_ret preserves_raise preserves_get preserves_load
  preserves_alloc preserves_with_buffer preserves_getattr preserves_weaken
  preserves_on_error_setattr : frame.

(** One step of a frame proof: split a sequence, or enter a branch. *)
Ltac frame_step :=
  first
    [ apply preserves_bind
    | apply preserves_on_error_bind
    | progress auto with frame
    | match goal with
      | |- forall _, _ => intro
      | |- preserves _ (match ?x with _ => _ end) => destruct x
      | |- preserves_on_error _ (match ?x with _ => _ end) => destruct x
      | |- preserves _ (if ?x then _ else _) => destruct x
      | |- preserves_on_error _ (if ?x then _ else _) => destruct x
      end ].

Ltac frame := repeat frame_step.

Lemma preserves_load_columns {C : Type} (f : HarmonicEQL -> C) (c : coords) :
  preserves f (load_columns c).
Proof. unfold load_columns. frame. Qed.

Lemma preserves_np_zeros {C : Type} (f : HarmonicEQL -> C) (s : list nat) :
  preserves f (np_zeros s).
Proof. unfold np_zeros. frame. Qed.

Lemma preserves_copy {C : Type} (f : HarmonicEQL -> C) (a : ndarray) : preserves f (copy a).
Proof. unfold copy. frame. Qed.

Lemma preserves_scalar_mul {C : Type} (f : HarmonicEQL -> C) (c : R) (a : ndarray) :
  preserves f (scalar_mul c a).
Proof. unfold scalar_mul. frame. Qed.

Lemma preserves_isub {C : Type} (f : HarmonicEQL -> C) (a b : ndarray) :
  preserves f (isub a b).
Proof. unfold isub. frame. intros w. reflexivity. Qed.

Lemma preserves_reshape {C : Type} (f : HarmonicEQL -> C) (a : ndarray) (s : list nat) :
  preserves f (reshape a s).
Proof. unfold reshape. frame. Qed.

Lemma preserves_np_broadcast_shape {C : Type} (f : HarmonicEQL -> C) (c : coords) :
  preserves f (np_broadcast_shape c).
Proof. unfold np_broadcast_shape. frame. Qed.

Lemma preserves_np_broadcast_size {C : Type} (f : HarmonicEQL -> C) (c : coords) :
  preserves f (np_broadcast_size c).
Proof. unfold np_broadcast_size. frame. apply preserves_np_broadcast_shape. Qed.

Lemma preserves_check_fit_input {C : Type} (f : HarmonicEQL -> C) (c : coords)
      (data : ndarray) (weights : option ndarray) :
  preserves f (check_fit_input c data weights).
Proof. unfold check_fit_input. frame. Qed.

Lemma preserves_check_is_fitted {C : Type} (f : HarmonicEQL -> C) (l : list attribute) :
  preserves f (check_is_fitted l).
Proof. unfold check_is_fitted. frame. Qed.

#[export] Hint Resolve preserves_load_columns preserves_np_zeros preserves_copy
  preserves_scalar_mul preserves_isub preserves_reshape preserves_np_broadcast_shape
  preserves_np_broadcast_size preserves_check_fit_input preserves_check_is_fitted : frame.

Section Frames.

Context {ext : Collaborators}.

(** [jacobian] and [predict] assign no attribute of the estimator. *)
Lemma preserves_jacobian {C : Type} (f : HarmonicEQL -> C) (c p : coords) :
  preserves f (jacobian c p).
Proof. unfold jacobian. frame. Qed.

Lemma preserves_predict {C : Type} (f : HarmonicEQL -> C) (c : coords) :
  preserves f (predict c).
Proof. unfold predict. frame. Qed.

Lemma preserves_call_least_squares {C : Type} (f : HarmonicEQL -> C) (j d : ndarray)
      (wt : option ndarray) (dmp : option R) :
  preserves f (call_least_squares j d wt dmp).
Proof. unfold call_least_squares. frame. Qed.

(** A call of [fit] that raises has not assigned [coefs_]. *)
Lemma fit_error_keeps_coefs (c : coords) (data : ndarray) (weights : option ndarray) :
  preserves_on_error coefs_ (fit c data weights).
Proof.
  pose proof (@preserves_jacobian (option ndarray)) as Hj.
  pose proof (@preserves_call_least_squares (option ndarray)) as Hl.
  unfold fit. frame; apply preserves_setattr; reflexivity.
Qed.

(** [fit] assigns none of the parameters of the estimator. *)
Lemma fit_keeps_parameters (c : coords) (data : ndarray) (weights : option ndarray) :
  preserves (fun s => (damping s, points s, depth_factor s)) (fit c data weights).
Proof.
  pose proof (@preserves_jacobian (option R * option coords * R)) as Hj.
  pose proof (@preserves_call_least_squares (option R * option coords * R)) as Hl.
  unfold fit. frame; apply preserves_setattr; reflexivity.
Qed.

End Frames.

(** ** The methods, step by step *)

Section Runs.

Context {ext : Collaborators}.

(** [jacobian] allocates the matrix, runs the kernel on it and returns it
    when the kernel did not raise. *)
Lemma jacobian_run (coordinates pts : coords) (w : world) :
  valid_coords (heap w) coordinates -> valid_coords (heap w) pts ->
  let sh := [size (fst (fst coordinates)); size (fst (fst pts))] in
  let out := jacobian_numba (columns_of (heap w) coordinates) (columns_of (heap w) pts) sh
               (repeat 0 (prod_shape sh)) in
  jacobian coordinates pts w
  = (mk_world (self w) (heap w ++ [fst out]),
     match snd out with
     | inl e => inl e
     | inr _ => inr (mk_ndarray (length (heap w)) sh)
     end).
Proof.
  intros Hc Hp sh out. unfold jacobian, np_zeros, alloc.
  unfold bind at 1. unfold bind at 1. unfold ret at 1.
  unfold bind at 1. rewrite load_columns_run.
  unfold bind at 1. rewrite load_columns_run.
  unfold bind at 1, with_buffer. cbn [heap self buffer shape].
  rewrite !columns_of_app by assumption.
  rewrite contents_new. fold sh. fold out.
  destruct out as [J [ e | [] ]]; cbn [fst snd]; now rewrite list_set_new.
Qed.

(** The last statements of [fit]: the matrix is built, the solver is
    called on it, and only when it returns is [coefs_] assigned. *)
Lemma fit_tail_run (coordinates pts : coords) (data : ndarray) (weights : option ndarray)
      (dmp : option R) (w : world) :
  points_ (self w) = Some pts ->
  valid_coords (heap w) coordinates -> valid_coords (heap w) pts ->
  allocated (heap w) data -> valid_option (allocated (heap w)) weights ->
  let h := heap w in
  let sh := [size (fst (fst coordinates)); size (fst (fst pts))] in
  let out := jacobian_numba (columns_of h coordinates) (columns_of h pts) sh
               (repeat 0 (prod_shape sh)) in
  fit_tail coordinates data weights dmp w
  = match snd out with
    | inl e => (mk_world (self w) (h ++ [fst out]), inl e)
    | inr _ =>
        match least_squares sh (fst out) (contents h data)
                (option_map (contents h) weights) dmp with
        | inl e => (mk_world (self w) (h ++ [fst out]), inl (LeastSquaresError e))
        | inr c =>
            (mk_world (set_coefs_ (mk_ndarray (S (length h)) [length c]) (self w))
                      (h ++ [fst out; c]),
             inr tt)
        end
    end.
Proof.
  intros Hpts Hc Hp Hd Hw h sh out. unfold fit_tail.
  unfold bind at 1, getattr at 1. rewrite Hpts.
  unfold bind at 1. rewrite jacobian_run by assumption.
  fold h. fold sh. fold out.
  destruct out as [J [ e | [] ]]; cbn [fst snd]; [ reflexivity | ].
  unfold bind at 1, call_least_squares.
  unfold bind at 1, load at 1. cbn [heap self shape].
  rewrite contents_new.
  unfold bind at 1, load at 1. cbn [heap self].
  rewrite contents_app by exact Hd.
  unfold bind at 1.
  assert (Hwt : match weights with
                | Some a => v <- load a ;; ret (Some v)
                | None => ret None
                end (mk_world (self w) (h ++ [J]))
                = (mk_world (self w) (h ++ [J]), inr (option_map (contents h) weights))).
  { destruct weights as [ a | ]; [ | reflexivity ].
    unfold bind, load, ret. cbn [heap self option_map].
    now rewrite contents_app by exact Hw. }
  rewrite Hwt.
  destruct (least_squares sh J (contents h data) (option_map (contents h) weights) dmp)
    as [ e | c ]; [ reflexivity | ].
  unfold bind, alloc, ret, setattr, modify. cbn [heap self].
  rewrite length_app, <- app_assoc. cbn [length app].
  now rewrite Nat.add_1_r.
Qed.

Lemma check_fit_input_ok (c : coords) (data : ndarray) (weights : option ndarray)
      (w : world) :
  consistent c data weights ->
  check_fit_input c data weights w = (w, inr (c, data, weights)).
Proof.
  destruct c as [[east north] vertical]. intros (Hn & Hv & Hd & Hw).
  unfold check_fit_input.
  destruct (list_eq_dec Nat.eq_dec (shape north) (shape east)); [ | contradiction ].
  destruct (list_eq_dec Nat.eq_dec (shape vertical) (shape east)); [ | contradiction ].
  destruct (list_eq_dec Nat.eq_dec (shape data) (shape east)); [ | contradiction ].
  destruct weights as [ a | ]; [ | reflexivity ]. simpl in Hw.
  destruct (list_eq_dec Nat.eq_dec (shape a) (shape data)); [ reflexivity | contradiction ].
Qed.

Lemma check_fit_input_fails (c : coords) (data : ndarray) (weights : option ndarray)
      (w : world) :
  ~ consistent c data weights ->
  check_fit_input c data weights w = (w, inl ValueError).
Proof.
  destruct c as [[east north] vertical]. intros H. unfold check_fit_input.
  destruct (list_eq_dec Nat.eq_dec (shape north) (shape east)); [ | reflexivity ].
  destruct (list_eq_dec Nat.eq_dec (shape vertical) (shape east)); [ | reflexivity ].
  destruct (list_eq_dec Nat.eq_dec (shape data) (shape east)); [ | reflexivity ].
  destruct weights as [ a | ].
  - destruct (list_eq_dec Nat.eq_dec (shape a) (shape data)); [ | reflexivity ].
    exfalso. apply H. simpl. auto.
  - exfalso. apply H. simpl. auto.
Qed.

(** [fit] with the default sources, up to the assignment of [points_]:
    the store gains, in this order, the nearest distances, the three
    copies that become the sources, and the scaled distances; the
    coordinate arrays of the caller are only read. *)
Lemma fit_default_run (c : coords) (data : ndarray) (weights : option ndarray)
      (w : world) :
  points (self w) = None ->
  consistent c data weights ->
  valid_coords (heap w) c ->
  let h := heap w in
  let n := size (fst (fst c)) in
  let xs := columns_of h c in
  let f := depth_factor (self w) in
  let nd := map (nearest xs) (seq 0 n) in
  let srcs := default_sources xs f in
  let placed :=
    mk_world
      (set_points_ (mk_ndarray (length h + 1)%nat [n],
                    mk_ndarray (length h + 2)%nat [n],
                    mk_ndarray (length h + 3)%nat [n])
                   (set_region_ (get_region (fst (fst xs)) (snd (fst xs))) (self w)))
      (h ++ [nd; fst (fst srcs); snd (fst srcs); snd srcs; map (Rmult f) nd]) in
  fit c data weights w = fit_tail (ravelled c) data weights (damping (self w)) placed.
Proof.
  intros Hpts Hcons Hvalid h n xs f nd srcs placed.
  unfold fit. unfold bind at 1. rewrite check_fit_input_ok by assumption.
  destruct c as [[east north] vertical].
  destruct Hcons as (Hn & Hv & Hd & Hw).
  destruct Hvalid as ((Hae & Hle) & (Han & Hln) & (Hav & Hlv)).
  assert (Hsn : size north = size east) by (unfold size; now rewrite Hn).
  assert (Hsv : size vertical = size east) by (unfold size; now rewrite Hv).
  rewrite !bind_load, bind_setattr, bind_get.
  cbn [self heap points depth_factor damping set_region_].
  rewrite Hpts. rewrite !ravel_atleast_1d. cbn [buffer].
  rewrite !size_1d.
  unfold bind at 1.
  rewrite bind_np_zeros, bind_load_columns, bind_with_buffer. cbn [self heap buffer shape].
  cbn [columns_of]. rewrite !contents_app by (cbn [buffer]; assumption).
  rewrite contents_new, !contents_view.
  rewrite distance_to_nearest_point_run
    by (cbn [fst]; rewrite repeat_length; unfold prod_shape; simpl;
        rewrite Nat.mul_1_r; symmetry; exact Hle).
  cbn [fst snd]. rewrite Hle.
  rewrite list_set_new.
  rewrite bind_copy. tidy_store.
  rewrite bind_copy. tidy_store.
  rewrite bind_copy. tidy_store.
  rewrite bind_scalar_mul. tidy_store.
  rewrite contents_new, Hsn, Hsv.
  rewrite length_app_1, length_app_2, length_app_3, length_app_4.
  rewrite bind_isub by reflexivity. tidy_store.
  rewrite !contents_app_r. cbn [nth].
  rewrite list_set_app_r. cbn [list_set].
  unfold ravelled. rewrite !ravel_atleast_1d, Hsn, Hsv.
  subst placed srcs nd xs n f h. cbn [default_sources columns_of fst snd].
  rewrite Hle. reflexivity.
Qed.


(** [fit] with sources given by the caller, up to the assignment of
    [points_]: the sources are views of the caller's arrays and the store
    is as it was. *)
Lemma fit_user_run (c p : coords) (data : ndarray) (weights : option ndarray)
      (w : world) :
  points (self w) = Some p ->
  consistent c data weights ->
  let xs := columns_of (heap w) c in
  let placed :=
    mk_world
      (set_points_ (ravelled p)
                   (set_region_ (get_region (fst (fst xs)) (snd (fst xs))) (self w)))
      (heap w) in
  fit c data weights w = fit_tail (ravelled c) data weights (damping (self w)) placed.
Proof.
  intros Hpts Hcons xs placed.
  unfold fit. unfold bind at 1. rewrite check_fit_input_ok by assumption.
  destruct c as [[east north] vertical], p as [[p0 p1] p2].
  rewrite !bind_load, bind_setattr, bind_get.
  cbn [self heap points depth_factor damping set_region_].
  rewrite Hpts. reflexivity.
Qed.

Lemma fit_inconsistent (c : coords) (data : ndarray) (weights : option ndarray)
      (w : world) :
  ~ consistent c data weights -> fit c data weights w = (w, inl ValueError).
Proof.
  intros H. unfold fit, bind at 1. now rewrite check_fit_input_fails.
Qed.

Lemma consistent_dec (c : coords) (data : ndarray) (weights : option ndarray) :
  consistent c data weights \/ ~ consistent c data weights.
Proof.
  destruct c as [[east north] vertical]. unfold consistent.
  destruct (list_eq_dec Nat.eq_dec (shape north) (shape east)); [ | tauto ].
  destruct (list_eq_dec Nat.eq_dec (shape vertical) (shape east)); [ | tauto ].
  destruct (list_eq_dec Nat.eq_dec (shape data) (shape east)); [ | tauto ].
  destruct weights as [ a | ]; simpl; [ | tauto ].
  destruct (list_eq_dec Nat.eq_dec (shape a) (shape data)); tauto.
Qed.

(** [predict], case by case in the order of its statements. *)
Lemma predict_run (c : coords) (w : world) :
  valid_coords (heap w) c ->
  valid_option (valid_coords (heap w)) (points_ (self w)) ->
  valid_option (allocated (heap w)) (coefs_ (self w)) ->
  let h := heap w in
  predict c w
  = match coefs_ (self w) with
    | None => (w, inl NotFittedError)
    | Some cf =>
        match broadcast3 c with
        | None => (w, inl ValueError)
        | Some s =>
            let zeros := repeat 0 (prod_shape [prod_shape s]) in
            match points_ (self w) with
            | None => (mk_world (self w) (h ++ [zeros]), inl AttributeError)
            | Some ps =>
                let out := predict_numba (columns_of h c) (columns_of h ps)
                             (contents h cf) zeros in
                (mk_world (self w) (h ++ [fst out]),
                 match snd out with
                 | inl e => inl e
                 | inr _ => inr (mk_ndarray (length h) s)
                 end)
            end
        end
    end.
Proof.
  intros Hc Hps Hcf h. unfold predict.
  unfold bind at 1, check_is_fitted. rewrite bind_get. cbn [forallb hasattr].
  destruct (coefs_ (self w)) as [ cf | ] eqn:Ecf; [ | reflexivity ].
  cbn [andb]. unfold ret at 1.
  unfold bind at 1, np_broadcast_shape.
  destruct (broadcast3 c) as [ s | ] eqn:Eb; [ | reflexivity ].
  unfold ret at 1. unfold bind at 1, np_broadcast_size, bind at 1, np_broadcast_shape.
  rewrite Eb. unfold ret at 1 2.
  destruct c as [[east north] vertical].
  rewrite bind_np_zeros.
  unfold bind at 1, getattr at 1. cbn [self heap].
  destruct (points_ (self w)) as [ ps | ] eqn:Eps; [ | reflexivity ].
  unfold bind at 1, getattr at 1. cbn [self heap]. rewrite Ecf.
  rewrite bind_load_columns, bind_load_columns, bind_load, bind_with_buffer.
  cbn [valid_option] in Hps, Hcf.
  cbn [self heap buffer shape].
  destruct Hc as ((Hae & Hle) & (Han & Hln) & (Hav & Hlv)).
  rewrite (columns_of_app _ _ ps) by exact Hps.
  rewrite (contents_app _ _ cf) by exact Hcf.
  rewrite contents_new, list_set_new.
  cbn [columns_of]. rewrite !ravel_atleast_1d, !contents_view.
  rewrite !contents_app by assumption.
  fold h.
  destruct (predict_numba _ _ _ _) as [v [ e | [] ]]; cbn [fst snd]; [ reflexivity | ].
  unfold reshape. rewrite size_1d, Nat.eqb_refl. reflexivity.
Qed.

Lemma valid_ravelled (h : list (list R)) (c : coords) :
  valid_coords h c -> valid_coords h (ravelled c).
Proof.
  destruct c as [[a1 a2] a3]. unfold valid_coords, ravelled, valid.
  rewrite !ravel_atleast_1d, !contents_view, !size_1d. cbn [buffer]. tauto.
Qed.

Lemma valid_extends (h t : list (list R)) (a : ndarray) :
  valid h a -> valid (h ++ t) a.
Proof.
  intros (Ha & Hl). split.
  - rewrite length_app. lia.
  - now rewrite contents_app.
Qed.

Lemma valid_coords_extends (h t : list (list R)) (c : coords) :
  valid_coords h c -> valid_coords (h ++ t) c.
Proof.
  destruct c as [[a1 a2] a3]. intros (H1 & H2 & H3).
  repeat split; now apply valid_extends.
Qed.

Lemma allocated_extends (h t : list (list R)) (a : ndarray) :
  allocated h a -> allocated (h ++ t) a.
Proof. unfold allocated. rewrite length_app. lia. Qed.

Lemma valid_option_allocated_extends (h t : list (list R)) (o : option ndarray) :
  valid_option (allocated h) o -> valid_option (allocated (h ++ t)) o.
Proof. destruct o; simpl; [ apply allocated_extends | trivial ]. Qed.

(** What the last statements of [fit] leave behind: the store grows by
    the matrix and, when the solver returns, by the coefficients; only
    [coefs_] may be assigned, and only when the solver returns. *)
Lemma fit_tail_result (coordinates pts : coords) (data : ndarray)
      (weights : option ndarray) (dmp : option R) (w : world) :
  points_ (self w) = Some pts ->
  valid_coords (heap w) coordinates -> valid_coords (heap w) pts ->
  allocated (heap w) data -> valid_option (allocated (heap w)) weights ->
  let w' := fst (fit_tail coordinates data weights dmp w) in
  let r := snd (fit_tail coordinates data weights dmp w) in
  extends (heap w) (heap w') /\
  region_ (self w') = region_ (self w) /\
  points_ (self w') = points_ (self w) /\
  match r with
  | inl _ => coefs_ (self w') = coefs_ (self w)
  | inr _ =>
      exists cf J,
        coefs_ (self w') = Some cf /\
        (length (heap w) <= buffer cf)%nat /\
        least_squares [size (fst (fst coordinates)); size (fst (fst pts))] J
                      (contents (heap w) data) (option_map (contents (heap w)) weights) dmp
        = inr (contents (heap w') cf)
  end.
Proof.
  intros Hpts Hc Hp Hd Hw.
  rewrite (fit_tail_run coordinates pts data weights dmp w Hpts Hc Hp Hd Hw).
  destruct (jacobian_numba _ _ _ _) as [J [ e | [] ]]; cbn [fst snd].
  - repeat split; try reflexivity. now exists [J].
  - destruct (least_squares _ J _ _ dmp) as [ e | cf ] eqn:Els; cbn [fst snd self heap].
    + repeat split; try reflexivity. now exists [J].
    + split; [ now exists [J; cf] | ]. split; [ reflexivity | ]. split; [ reflexivity | ].
      exists (mk_ndarray (S (length (heap w))) [length cf]), J.
      split; [ reflexivity | ]. split; [ cbn [buffer]; lia | ].
      rewrite Els. f_equal.
      replace (S (length (heap w))) with (length (heap w) + 1)%nat by lia.
      now rewrite contents_app_r.
Qed.

Lemma length_zip_minus (a b : list R) :
  length (zip_minus a b) = Nat.min (length a) (length b).
Proof.
  revert b. induction a as [ | x a IH ]; intros [ | y b ]; simpl; auto.
Qed.

Lemma nth_zip_minus (a b : list R) (i : nat) :
  (i < length a)%nat -> (i < length b)%nat ->
  (zip_minus a b).[i] = a.[i] - b.[i].
Proof.
  revert b i. induction a as [ | x a IH ]; intros [ | y b ] [ | i ] Ha Hb;
    simpl in *; try lia; auto.
  apply IH; lia.
Qed.

Lemma option_map_contents_app (h t : list (list R)) (o : option ndarray) :
  valid_option (allocated h) o ->
  option_map (contents (h ++ t)) o = option_map (contents h) o.
Proof.
  destruct o as [ a | ]; simpl; [ | reflexivity ].
  intros H. now rewrite contents_app.
Qed.

(** The whole of [fit] with the default sources. *)
Lemma fit_default_result (c : coords) (data : ndarray) (weights : option ndarray)
      (w : world) :
  points (self w) = None ->
  consistent c data weights ->
  valid_coords (heap w) c ->
  allocated (heap w) data -> valid_option (allocated (heap w)) weights ->
  let h := heap w in
  let n := size (fst (fst c)) in
  let xs := columns_of h c in
  let f := depth_factor (self w) in
  let nd := map (nearest xs) (seq 0 n) in
  let srcs := default_sources xs f in
  let w' := fst (fit c data weights w) in
  let r := snd (fit c data weights w) in
  (exists t, heap w' = h ++ nd :: fst (fst srcs) :: snd (fst srcs) :: snd srcs
                           :: map (Rmult f) nd :: t) /\
  region_ (self w') = Some (get_region (fst (fst xs)) (snd (fst xs))) /\
  points_ (self w') = Some (mk_ndarray (length h + 1)%nat [n],
                            mk_ndarray (length h + 2)%nat [n],
                            mk_ndarray (length h + 3)%nat [n]) /\
  match r with
  | inl _ => coefs_ (self w') = coefs_ (self w)
  | inr _ =>
      exists cf, coefs_ (self w') = Some cf /\ (length h <= buffer cf)%nat /\
                 solved w data weights w' cf
  end.
Proof.
  intros Hpts Hcons Hvalid Hd Hw h n xs f nd srcs.
  rewrite (fit_default_run c data weights w Hpts Hcons Hvalid).
  fold h. fold n. fold xs. fold f. fold nd. fold srcs.
  match goal with |- context [fit_tail _ _ _ _ ?p] => set (placed := p) end.
  assert (Hlens : length (fst (fst xs)) = n /\ length (snd (fst xs)) = n /\
                  length (snd xs) = n).
  { subst xs n h. destruct c as [[east north] vertical].
    destruct Hcons as (Hn & Hv & _).
    destruct Hvalid as ((_ & Hle) & (_ & Hln) & (_ & Hlv)).
    cbn [columns_of fst snd]. unfold size in *. rewrite Hle, Hln, Hlv, Hn, Hv. auto. }
  destruct Hlens as (HlE & HlN & HlV).
  assert (Hnd : length nd = n) by (subst nd; now rewrite length_map, length_seq).
  assert (Hsrc : srcs = (fst (fst xs), snd (fst xs),
                         zip_minus (snd xs) (map (Rmult f) nd))).
  { subst srcs nd. destruct xs as [[E N] V]. cbn [default_sources fst snd] in *.
    now rewrite HlE. }
  pose proof (fit_tail_result (ravelled c)
                (mk_ndarray (length h + 1)%nat [n],
                 mk_ndarray (length h + 2)%nat [n],
                 mk_ndarray (length h + 3)%nat [n])
                data weights (damping (self w)) placed) as Htail.
  cbv zeta in Htail.
  destruct Htail as ((t & Ht) & Hreg & Hp & Hr).
  - reflexivity.
  - subst placed. cbn [heap]. apply valid_coords_extends, valid_ravelled, Hvalid.
  - subst placed. cbn [heap valid_coords]. unfold valid.
    rewrite !contents_app_r, !size_1d. cbn [nth buffer].
    rewrite !length_app. cbn [length].
    rewrite Hsrc. cbn [fst snd]. rewrite length_zip_minus, length_map, HlE, HlN, HlV, Hnd.
    repeat split; lia.
  - subst placed. cbn [heap]. now apply allocated_extends.
  - subst placed. cbn [heap]. now apply valid_option_allocated_extends.
  - split; [ | split; [ | split ] ].
    + exists t. rewrite Ht. subst placed. cbn [heap]. now rewrite <- app_assoc.
    + rewrite Hreg. reflexivity.
    + rewrite Hp. reflexivity.
    + destruct (snd (fit_tail _ _ _ _ placed)) as [ e | [] ].
      * rewrite Hr. reflexivity.
      * destruct Hr as (cf & J & Hcf & Hfresh & Hls).
        exists cf. split; [ exact Hcf | ]. split.
        -- subst placed. cbn [heap] in Hfresh. rewrite length_app in Hfresh. lia.
        -- subst placed. cbn [heap self set_points_ set_region_ damping] in Hls.
           rewrite contents_app in Hls by exact Hd.
           rewrite option_map_contents_app in Hls by exact Hw.
           eexists _, J. exact Hls.
Qed.

(** The whole of [fit] with the sources of the caller. *)
Lemma fit_user_result (c p : coords) (data : ndarray) (weights : option ndarray)
      (w : world) :
  points (self w) = Some p ->
  consistent c data weights ->
  valid_coords (heap w) c -> valid_coords (heap w) p ->
  allocated (heap w) data -> valid_option (allocated (heap w)) weights ->
  let xs := columns_of (heap w) c in
  let w' := fst (fit c data weights w) in
  let r := snd (fit c data weights w) in
  extends (heap w) (heap w') /\
  region_ (self w') = Some (get_region (fst (fst xs)) (snd (fst xs))) /\
  points_ (self w') = Some (ravelled p) /\
  match r with
  | inl _ => coefs_ (self w') = coefs_ (self w)
  | inr _ =>
      exists cf, coefs_ (self w') = Some cf /\ (length (heap w) <= buffer cf)%nat /\
                 solved w data weights w' cf
  end.
Proof.
  intros Hpts Hcons Hvalid Hvp Hd Hw xs.
  rewrite (fit_user_run c p data weights w Hpts Hcons). fold xs.
  match goal with |- context [fit_tail _ _ _ _ ?q] => set (placed := q) end.
  pose proof (fit_tail_result (ravelled c) (ravelled p) data weights (damping (self w))
                placed) as Htail.
  cbv zeta in Htail.
  destruct Htail as (Hext & Hreg & Hp & Hr); try reflexivity;
    try (subst placed; cbn [heap]; first [ now apply valid_ravelled | assumption ]).
  split; [ exact Hext | ]. split; [ rewrite Hreg; reflexivity | ].
  split; [ rewrite Hp; reflexivity | ].
  destruct (snd (fit_tail _ _ _ _ placed)) as [ e | [] ].
  - rewrite Hr. reflexivity.
  - destruct Hr as (cf & J & Hcf & Hfresh & Hls).
    exists cf. split; [ exact Hcf | ]. split; [ exact Hfresh | ].
    now exists [size (fst (fst (ravelled c))); size (fst (fst (ravelled p)))], J.
Qed.

End Runs.

(** ** The default sources *)

(** C1: a call of [fit] on an estimator without sources of its own, on
    n >= 2 observations that [check_fit_input] accepts, leaves in
    [points_] three 1-d arrays of n entries: source i has the easting and
    the northing of observation i, and the vertical coordinate of
    observation i minus [depth_factor] times the least distance from
    observation i to another observation.  This holds whatever the later
    statements of [fit] do. *)
Theorem fit_default_sources {ext : Collaborators} (w : world) (c : coords)
        (data : ndarray) (weights : option ndarray) :
  points (self w) = None ->
  consistent c data weights ->
  valid_coords (heap w) c ->
  allocated (heap w) data -> valid_option (allocated (heap w)) weights ->
  (2 <= size (fst (fst c)))%nat ->
  let n := size (fst (fst c)) in
  let xs := columns_of (heap w) c in
  let w' := fst (fit c data weights w) in
  exists pe pn pv,
    points_ (self w') = Some (pe, pn, pv) /\
    (shape pe = [n] /\ shape pn = [n] /\ shape pv = [n]) /\
    (length (contents (heap w') pe) = n /\ length (contents (heap w') pn) = n /\
     length (contents (heap w') pv) = n) /\
    forall i, (i < n)%nat ->
      (contents (heap w') pe).[i] = (fst (fst xs)).[i] /\
      (contents (heap w') pn).[i] = (snd (fst xs)).[i] /\
      exists m,
        is_min_distance xs n i m /\
        (contents (heap w') pv).[i] = (snd xs).[i] - depth_factor (self w) * m.
Proof.
  intros Hpts Hcons Hvalid Hd Hw H2 n xs w'.
  destruct (fit_default_result c data weights w Hpts Hcons Hvalid Hd Hw)
    as ((t & Ht) & _ & Hp & _).
  fold w' in Ht, Hp. fold n in Ht, Hp. fold xs in Ht.
  assert (Hlens : length (fst (fst xs)) = n /\ length (snd (fst xs)) = n /\
                  length (snd xs) = n).
  { subst xs n. destruct c as [[east north] vertical].
    destruct Hcons as (Hn & Hv & _).
    destruct Hvalid as ((_ & Hle) & (_ & Hln) & (_ & Hlv)).
    cbn [columns_of fst snd]. unfold size in *. rewrite Hle, Hln, Hlv, Hn, Hv. auto. }
  destruct Hlens as (HlE & HlN & HlV).
  pose proof (nearest_is_min xs) as Hmin.
  destruct xs as [[E N] V] eqn:Exs. cbn [fst snd] in *.
  cbn [default_sources fst snd] in Ht. rewrite HlE in Ht.
  exists (mk_ndarray (length (heap w) + 1)%nat [n]),
         (mk_ndarray (length (heap w) + 2)%nat [n]),
         (mk_ndarray (length (heap w) + 3)%nat [n]).
  split; [ exact Hp | ]. split; [ auto | ].
  rewrite Ht, !contents_app_r. cbn [nth].
  assert (Hnd : length (map (nearest (E, N, V)) (seq 0 n)) = n)
    by now rewrite length_map, length_seq.
  split.
  - rewrite length_zip_minus, length_map, Hnd, HlV. repeat split; auto. lia.
  - intros i Hi. split; [ reflexivity | ]. split; [ reflexivity | ].
    exists (nearest (E, N, V) i). split.
    + rewrite <- HlE. apply Hmin; lia.
    + rewrite nth_zip_minus by (rewrite ?length_map, ?length_seq; lia).
      rewrite (nth_indep (map (Rmult _) _) 0 (depth_factor (self w) * 0))
        by (rewrite !length_map, length_seq; lia).
      rewrite map_nth.
      rewrite (nth_indep (map (nearest _) _) 0 (nearest (E, N, V) 0%nat))
        by (rewrite length_map, length_seq; lia).
      rewrite map_nth, seq_nth by lia. reflexivity.
Qed.

(** Scenario B of the spec: the hypotheses hold there, and both sources sit
    at vertical = -30 beneath their observations. *)
Lemma fit_default_sources_witness :
  let w' := fst (@fit cautious observations_B data_B None world_B) in
  (2 <= size (fst (fst observations_B)))%nat /\
  exists pe pn pv,
    points_ (self w') = Some (pe, pn, pv) /\
    ((contents (heap w') pe).[0] = 0 /\ (contents (heap w') pe).[1] = 10) /\
    ((contents (heap w') pv).[0] = -30 /\ (contents (heap w') pv).[1] = -30).
Proof.
  assert (Hv : valid_coords store_B observations_B) by (repeat split; vm_compute; lia).
  assert (Hd : allocated store_B data_B) by (vm_compute; lia).
  assert (H2 : (2 <= size (fst (fst observations_B)))%nat) by (vm_compute; lia).
  assert (Hc : consistent observations_B data_B None) by (repeat split).
  intros w'. split; [ exact H2 | ].
  destruct (@fit_default_sources cautious world_B observations_B data_B None
              eq_refl Hc Hv Hd I H2)
    as (pe & pn & pv & Hp & _ & _ & Hi).
  fold w' in Hp, Hi. clearbody w'.
  assert (H10 : forall a b, a - b = 10 \/ a - b = -10 ->
                            distance a 0 0 b 0 0 = 10).
  { intros a b H. unfold distance.
    replace ((a - b) ^ 2 + (0 - 0) ^ 2 + (0 - 0) ^ 2) with (10 ^ 2)
      by (destruct H as [ H | H ]; rewrite H; ring).
    apply sqrt_pow2. lra. }
  exists pe, pn, pv. split; [ exact Hp | ].
  destruct (Hi 0%nat) as (He0 & _ & m0 & ((j0 & Hj0 & Hne0 & Hm0) & _) & Hv0);
    [ vm_compute; lia | ].
  destruct (Hi 1%nat) as (He1 & _ & m1 & ((j1 & Hj1 & Hne1 & Hm1) & _) & Hv1);
    [ vm_compute; lia | ].
  change (size (fst (fst observations_B))) with 2%nat in Hj0, Hj1.
  assert (j0 = 1%nat) by lia. assert (j1 = 0%nat) by lia. subst j0 j1.
  cbn in Hm0, Hm1, Hv0, Hv1, He0, He1.
  rewrite H10 in Hm0 by lra. rewrite H10 in Hm1 by lra. subst m0 m1.
  split; split; try assumption; lra.
Defined.

(** C10: a call of [fit] on an estimator without sources of its own writes
    into no array that existed before the call: the sources it derives are
    new arrays, the depth adjustment is made in the new copy of the
    vertical coordinates, and every array of the caller, the coordinate
    arrays among them, holds after the call the values it held before. *)
Theorem fit_default_keeps_inputs {ext : Collaborators} (w : world) (c : coords)
        (data : ndarray) (weights : option ndarray) :
  points (self w) = None ->
  valid_coords (heap w) c ->
  allocated (heap w) data -> valid_option (allocated (heap w)) weights ->
  let w' := fst (fit c data weights w) in
  (forall a, allocated (heap w) a -> contents (heap w') a = contents (heap w) a) /\
  columns_of (heap w') c = columns_of (heap w) c /\
  (consistent c data weights ->
   exists ps, points_ (self w') = Some ps /\ sources_of_call w c w' ps).
Proof.
  intros Hpts Hvalid Hd Hw w'.
  assert (Hext : extends (heap w) (heap w') /\
                 (consistent c data weights ->
                  exists ps, points_ (self w') = Some ps /\ sources_of_call w c w' ps)).
  { destruct (consistent_dec c data weights) as [ Hcons | Hcons ].
    - destruct (fit_default_result c data weights w Hpts Hcons Hvalid Hd Hw)
        as ((t & Ht) & _ & Hp & _).
      fold w' in Ht, Hp. split; [ eexists; exact Ht | ].
      intros _. eexists. split; [ exact Hp | ].
      unfold sources_of_call. rewrite Hpts. cbn [buffer].
      repeat split; try lia.
      cbn [columns_of]. rewrite Ht, !contents_app_r. cbn [nth].
      now destruct (default_sources _ _) as [[E N] V].
    - subst w'. rewrite (fit_inconsistent c data weights w Hcons). cbn [fst].
      split; [ exists []; now rewrite app_nil_r | contradiction ]. }
  destruct Hext as ((t & Ht) & Hsrc).
  split; [ | split; [ | exact Hsrc ] ].
  - intros a Ha. rewrite Ht. now apply contents_app.
  - rewrite Ht. now apply columns_of_app.
Qed.

Lemma fit_default_keeps_inputs_witness :
  let w' := fst (@fit cautious observations_B data_B None world_B) in
  valid_coords (heap world_B) observations_B /\
  columns_of (heap w') observations_B = ([0; 10], [0; 0], [0; 0]).
Proof.
  assert (Hv : valid_coords store_B observations_B) by (repeat split; vm_compute; lia).
  assert (Hd : allocated store_B data_B) by (vm_compute; lia).
  intros w'. split; [ exact Hv | ].
  destruct (@fit_default_keeps_inputs cautious world_B observations_B data_B None
              eq_refl Hv Hd I) as (_ & Hc & _).
  fold w' in Hc. rewrite Hc. reflexivity.
Defined.

(** ** The Jacobian *)

Lemma size_of_shape_1d (a : ndarray) (n : nat) : shape a = [n] -> size a = n.
Proof. intros H. unfold size. rewrite H. simpl. apply Nat.mul_1_r. Qed.


Lemma distance_vertical_apart (e1 n1 v1 e2 n2 v2 : R) :
  v1 <> v2 -> distance e1 n1 v1 e2 n2 v2 <> 0.
Proof. intros Hv H. apply distance_zero_inv in H. tauto. Qed.

Lemma distance_A (e : R) : distance e 0 0 1 0 (-1) = sqrt ((e - 1) ^ 2 + 1).
Proof. unfold distance. f_equal. ring. Qed.

(** In scenario A no observation lies on the source. *)
Lemma apart_A (h : list (list R)) (i j : nat) :
  (i < 3)%nat -> (j < 1)%nat ->
  pair_distance (columns_of (store_A ++ h) observations_A)
                (columns_of (store_A ++ h) sources_A) i j <> 0.
Proof.
  intros Hi Hj. assert (j = 0%nat) by lia. subst j.
  unfold pair_distance. cbn [columns_of observations_A sources_A].
  unfold contents. cbn [buffer store_A app nth].
  apply distance_vertical_apart.
  destruct i as [ | [ | [ | i ] ] ]; cbn [nth]; try lra; lia.
Qed.


(** ** Prediction *)

Lemma length_first_column (h : list (list R)) (c : coords) :
  valid_coords h c -> length (fst (fst (columns_of h c))) = size (fst (fst c)).
Proof. destruct c as [[a1 a2] a3]. intros ((_ & Hl) & _). exact Hl. Qed.

Lemma broadcast_rev_same (s : list nat) : broadcast_rev s s = Some s.
Proof.
  induction s as [ | x s IH ]; simpl; [ reflexivity | ].
  now rewrite IH, Nat.eqb_refl.
Qed.

Lemma broadcast_shapes_same (s : list nat) : broadcast_shapes s s = Some s.
Proof.
  unfold broadcast_shapes. rewrite broadcast_rev_same. simpl. now rewrite rev_involutive.
Qed.

Lemma broadcast3_same (c : coords) (s : list nat) :
  shapes_eq c s -> broadcast3 c = Some s.
Proof.
  destruct c as [[a1 a2] a3]. intros (H1 & H2 & H3). unfold broadcast3.
  now rewrite H1, H2, H3, !broadcast_shapes_same.
Qed.

Lemma nth_repeat_0 (n i : nat) : (repeat 0 n).[i] = 0.
Proof.
  revert i. induction n as [ | n IH ]; intros [ | i ]; simpl; auto.
Qed.


Lemma valid_Q_sources : valid_coords (heap world_Q) (ravelled sources_A).
Proof. repeat split; vm_compute; lia. Qed.

Lemma apart_Q (i j : nat) :
  (i < 2)%nat -> (j < 1)%nat ->
  pair_distance (columns_of (heap world_Q) queries_flat)
                (columns_of (heap world_Q) (ravelled sources_A)) i j <> 0.
Proof.
  intros Hi Hj. assert (j = 0%nat) by lia. subst j.
  unfold pair_distance. cbn. apply distance_vertical_apart.
  destruct i as [ | [ | i ] ]; try lra; lia.
Qed.


(** C6: [predict] does not broadcast its query arrays.  These three arrays
    of two entries each have the shapes (2,1), (1,2) and (2,1), which
    broadcast to (2,2), and each of the four query points they describe is
    (0,0,0).  [predict] returns an array of shape (2,2) whose last entry is
    0, while the kernel sum at that query point is not 0: every array was
    ravelled on its own and the kernel ran over the two entries of the
    first, so only the first two of the four values were computed. *)
Lemma predict_does_not_broadcast :
  broadcast3 queries_crossed = Some [2%nat; 2%nat] /\
  exists w' out,
    predict queries_crossed world_Q = (w', inr out) /\
    shape out = [2%nat; 2%nat] /\
    (contents (heap w') out).[3] = 0 /\
    kernel_sum crossed_points (columns_of (heap world_Q) (ravelled sources_A))
               (contents (heap world_Q) coefs_A) 3 <> 0.
Proof.
  split; [ reflexivity | ].
  assert (Hc : valid_coords (heap world_Q) queries_crossed) by (repeat split; vm_compute; lia).
  rewrite (predict_run queries_crossed world_Q Hc valid_Q_sources)
    by (vm_compute; lia).
  change (coefs_ (self world_Q)) with (Some coefs_A).
  change (broadcast3 queries_crossed) with (Some [2%nat; 2%nat]).
  change (points_ (self world_Q)) with (Some (ravelled sources_A)).
  cbv zeta.
  destruct (predict_numba_run (columns_of (heap world_Q) queries_crossed)
              (columns_of (heap world_Q) (ravelled sources_A))
              (contents (heap world_Q) coefs_A)
              (repeat 0 (prod_shape [prod_shape [2%nat; 2%nat]])))
    as (buf' & Hrun & _ & _ & Hrest).
  - simpl. lia.
  - intros i j Hi Hj. apply apart_Q; [ exact Hi | exact Hj ].
  - rewrite Hrun. cbn [fst snd]. eexists _, _. split; [ reflexivity | ].
    cbn [heap shape]. split; [ reflexivity | ].
    rewrite contents_new. split.
    + rewrite Hrest by (simpl; lia). apply nth_repeat_0.
    + unfold kernel_sum. cbn. rewrite distance_A.
      replace ((0 - 1) ^ 2 + 1) with 2 by ring.
      assert (0 < sqrt 2) by (apply sqrt_lt_R0; lra).
      assert (0 < 1 / sqrt 2) by (apply Rdiv_lt_0_compat; lra).
      lra.
Qed.

(** ** Repeated calls *)

Lemma extends_refl (h : list (list R)) : extends h h.
Proof. exists []. now rewrite app_nil_r. Qed.

Lemma extends_one (h : list (list R)) (v : list R) : extends h (h ++ [v]).
Proof. now exists [v]. Qed.

(** C7: [jacobian] and [predict] are functions of the contents of their
    arguments and of the fitted state.  Of two calls in a row with the same
    arguments, neither assigns an attribute of the estimator nor writes
    into an array that existed before it, and both have the same outcome:
    the same exception, or arrays of one shape with the same contents. *)
Theorem methods_repeatable (w : world) (c p : coords) :
  valid_coords (heap w) c -> valid_coords (heap w) p ->
  valid_option (valid_coords (heap w)) (points_ (self w)) ->
  valid_option (allocated (heap w)) (coefs_ (self w)) ->
  (let w1 := fst (jacobian c p w) in
   let r1 := snd (jacobian c p w) in
   let w2 := fst (jacobian c p w1) in
   let r2 := snd (jacobian c p w1) in
   self w1 = self w /\ self w2 = self w /\
   extends (heap w) (heap w1) /\ extends (heap w1) (heap w2) /\
   same_output (heap w2) r1 (heap w2) r2) /\
  (let w1 := fst (predict c w) in
   let r1 := snd (predict c w) in
   let w2 := fst (predict c w1) in
   let r2 := snd (predict c w1) in
   self w1 = self w /\ self w2 = self w /\
   extends (heap w) (heap w1) /\ extends (heap w1) (heap w2) /\
   same_output (heap w2) r1 (heap w2) r2).
Proof.
  intros Hc Hp Hps Hcf. split.
  - cbv zeta. rewrite (jacobian_run c p w Hc Hp). cbn [fst snd].
    set (h := heap w).
    set (out := jacobian_numba (columns_of h c) (columns_of h p) _ _).
    rewrite jacobian_run by (cbn [heap]; now apply valid_coords_extends).
    cbn [fst snd self heap]. rewrite !columns_of_app by assumption. fold out.
    split; [ reflexivity | ]. split; [ reflexivity | ].
    split; [ apply extends_one | ]. split; [ apply extends_one | ].
    destruct (snd out) as [ e | [] ]; cbn [same_output shape]; [ reflexivity | ].
    split; [ reflexivity | ].
    rewrite <- app_assoc. cbn [app]. rewrite contents_new.
    pose proof (contents_app_r h [fst out; fst out] 1) as H1.
    rewrite length_app_1. now rewrite H1.
  - cbv zeta. rewrite (predict_run c w Hc Hps Hcf).
    set (h := heap w) in *.
    destruct (coefs_ (self w)) as [ cf | ] eqn:Ecf.
    2:{ cbn [fst snd]. rewrite (predict_run c w Hc Hps); [ | now rewrite Ecf ].
        rewrite Ecf. cbn [fst snd same_output].
        repeat split; auto using extends_refl. }
    destruct (broadcast3 c) as [ s | ] eqn:Eb.
    2:{ cbn [fst snd]. rewrite (predict_run c w Hc Hps); [ | now rewrite Ecf ].
        rewrite Ecf, Eb. cbn [fst snd same_output].
        repeat split; auto using extends_refl. }
    cbv zeta.
    destruct (points_ (self w)) as [ ps | ] eqn:Eps.
    + cbn [valid_option] in Hps, Hcf.
      set (out := predict_numba (columns_of h c) (columns_of h ps) (contents h cf) _).
      cbn [fst snd].
      rewrite predict_run; cbn [self heap];
        [ | now apply valid_coords_extends
          | rewrite Eps; now apply valid_coords_extends
          | rewrite Ecf; now apply allocated_extends ].
      rewrite Ecf, Eb, Eps. cbv zeta.
      rewrite !columns_of_app, contents_app by assumption. fold out.
      cbn [fst snd self heap].
      split; [ reflexivity | ]. split; [ reflexivity | ].
      split; [ apply extends_one | ]. split; [ apply extends_one | ].
      destruct (snd out) as [ e | [] ]; cbn [same_output shape]; [ reflexivity | ].
      split; [ reflexivity | ].
      rewrite <- app_assoc. cbn [app]. rewrite contents_new.
      pose proof (contents_app_r h [fst out; fst out] 1) as H1.
      rewrite length_app_1. now rewrite H1.
    + cbn [fst snd].
      rewrite predict_run; cbn [self heap];
        [ | now apply valid_coords_extends | now rewrite Eps | rewrite Ecf;
            now apply allocated_extends ].
      rewrite Ecf, Eb, Eps. cbn [fst snd self heap same_output].
      repeat split; auto using extends_one.
Qed.

Lemma methods_repeatable_witness :
  valid_coords (heap world_Q) queries_flat /\
  same_output
    (heap (fst (predict queries_flat (fst (predict queries_flat world_Q)))))
    (snd (predict queries_flat world_Q))
    (heap (fst (predict queries_flat (fst (predict queries_flat world_Q)))))
    (snd (predict queries_flat (fst (predict queries_flat world_Q)))).
Proof.
  assert (Hc : valid_coords (heap world_Q) queries_flat) by (repeat split; vm_compute; lia).
  split; [ exact Hc | ].
  destruct (methods_repeatable world_Q queries_flat (ravelled sources_A)
              Hc valid_Q_sources valid_Q_sources) as (_ & _ & _ & _ & _ & H).
  - vm_compute. lia.
  - exact H.
Defined.

(** ** The fitted state after a call of fit *)

(** C2, amended: when the least-squares solve inside [fit] raises, [coefs_]
    is as it was before the call and no array that existed has been
    written, but [region_] and [points_] have already been replaced by the
    region and the sources of this call; when the solve returns, [region_],
    [points_] and [coefs_] are all those of this call, the coefficients
    being a new array that holds the answer of the solver. *)
Theorem fit_solve_outcome {ext : Collaborators} (w : world) (c : coords)
        (data : ndarray) (weights : option ndarray) :
  valid_coords (heap w) c ->
  valid_option (valid_coords (heap w)) (points (self w)) ->
  allocated (heap w) data -> valid_option (allocated (heap w)) weights ->
  let w' := fst (fit c data weights w) in
  let r := snd (fit c data weights w) in
  let xs := columns_of (heap w) c in
  (r = inr tt \/ exists e, r = inl (LeastSquaresError e)) ->
  extends (heap w) (heap w') /\
  region_ (self w') = Some (get_region (fst (fst xs)) (snd (fst xs))) /\
  (exists ps, points_ (self w') = Some ps /\ sources_of_call w c w' ps) /\
  match r with
  | inl _ => coefs_ (self w') = coefs_ (self w)
  | inr _ =>
      exists cf, coefs_ (self w') = Some cf /\ (length (heap w) <= buffer cf)%nat /\
                 solved w data weights w' cf
  end.
Proof.
  intros Hvalid Hvp Hd Hw w' r xs Hr.
  destruct (consistent_dec c data weights) as [ Hcons | Hcons ].
  2:{ exfalso. subst r. rewrite (fit_inconsistent c data weights w Hcons) in Hr.
      cbn [snd] in Hr. destruct Hr as [ Hr | (e & Hr) ]; discriminate Hr. }
  destruct (points (self w)) as [ p | ] eqn:Hpts.
  - cbn [valid_option] in Hvp.
    destruct (fit_user_result c p data weights w Hpts Hcons Hvalid Hvp Hd Hw)
      as (Hext & Hreg & Hp & Hcoefs).
    split; [ exact Hext | ]. split; [ exact Hreg | ]. split; [ | exact Hcoefs ].
    exists (ravelled p). split; [ exact Hp | ].
    unfold sources_of_call. now rewrite Hpts.
  - destruct (fit_default_result c data weights w Hpts Hcons Hvalid Hd Hw)
      as ((t & Ht) & Hreg & Hp & Hcoefs).
    fold w' in Ht, Hreg, Hp, Hcoefs. fold r in Hcoefs.
    split; [ eexists; exact Ht | ]. split; [ exact Hreg | ]. split; [ | exact Hcoefs ].
    eexists. split; [ exact Hp | ].
    unfold sources_of_call. rewrite Hpts. cbn [buffer].
    repeat split; try lia.
    cbn [columns_of]. rewrite Ht, !contents_app_r. cbn [nth].
    now destruct (default_sources _ _) as [[E N] V].
Qed.

(** Scenario A with the solver that rejects systems without damping. *)
Lemma fit_A_rejected (s : HarmonicEQL) :
  points s = Some sources_A -> damping s = None ->
  snd (@fit cautious observations_A data_A None (mk_world s store_A))
  = inl (LeastSquaresError SingularSystem).
Proof.
  intros Hpts Hdmp.
  rewrite (@fit_user_run cautious observations_A sources_A data_A None
             (mk_world s store_A) Hpts) by (repeat split).
  cbv zeta. cbn [self heap].
  rewrite fit_tail_run with (pts := ravelled sources_A);
    [ | reflexivity | repeat split; vm_compute; lia | repeat split; vm_compute; lia
      | vm_compute; lia | exact I ].
  cbv zeta. cbn [self heap].
  destruct (jacobian_numba_run (columns_of store_A (ravelled observations_A))
              (columns_of store_A (ravelled sources_A)) (repeat 0 3))
    as (buf' & Hrun & _ & _).
  - reflexivity.
  - intros i j Hi Hj. pose proof (apart_A [] i j Hi Hj) as H.
    now rewrite app_nil_r in H.
  - change (jacobian_numba (columns_of store_A (ravelled observations_A))
              (columns_of store_A (ravelled sources_A)) [3%nat; 1%nat] (repeat 0 3)
            = (buf', inr tt)) in Hrun.
    change (size (fst (fst (ravelled observations_A)))) with 3%nat.
    change (size (fst (fst (ravelled sources_A)))) with 1%nat.
    change (prod_shape [3%nat; 1%nat]) with 3%nat.
    rewrite Hrun. cbn [fst snd]. rewrite Hdmp. reflexivity.
Qed.

Lemma fit_solve_outcome_witness :
  let w' := fst (@fit cautious observations_A data_A None world_A) in
  let r := snd (@fit cautious observations_A data_A None world_A) in
  r = inl (LeastSquaresError SingularSystem) /\
  points_ (self w') = Some (ravelled sources_A) /\
  coefs_ (self w') = Some coefs_A.
Proof.
  intros w' r.
  assert (Hr : r = inl (LeastSquaresError SingularSystem))
    by (apply fit_A_rejected; reflexivity).
  split; [ exact Hr | ].
  destruct (@fit_solve_outcome cautious world_A observations_A data_A None)
    as (_ & _ & (ps & Hp & Hsrc) & Hcf).
  - repeat split; vm_compute; lia.
  - repeat split; vm_compute; lia.
  - vm_compute; lia.
  - exact I.
  - right. exists SingularSystem. exact Hr.
  - fold w' in Hp, Hsrc, Hcf. fold r in Hcf. rewrite Hr in Hcf.
    unfold sources_of_call in Hsrc. cbn [world_A self points] in Hsrc. subst ps.
    split; [ exact Hp | exact Hcf ].
Defined.

(** C2, counterexample: the estimator of scenario A was fitted before, on
    data between the eastings 5 and 6.  The solve of this call raises, and
    after the call [region_] is no longer the region of the earlier fit
    while [coefs_] still is its coefficient vector. *)
Lemma fit_rejected_changes_state :
  let w' := fst (@fit cautious observations_A data_A None world_A) in
  snd (@fit cautious observations_A data_A None world_A)
  = inl (LeastSquaresError SingularSystem) /\
  region_ (self world_A) = Some (5, 6, 0, 0) /\
  region_ (self w') <> region_ (self world_A) /\
  coefs_ (self w') = coefs_ (self world_A).
Proof.
  intros w'.
  assert (Hr : snd (@fit cautious observations_A data_A None world_A)
               = inl (LeastSquaresError SingularSystem))
    by (apply fit_A_rejected; reflexivity).
  split; [ exact Hr | ]. split; [ reflexivity | ]. split.
  - destruct (@fit_user_result cautious observations_A sources_A data_A None world_A)
      as (_ & Hreg & _); try (repeat split; vm_compute; lia); try reflexivity.
    fold w' in Hreg. rewrite Hreg. cbn.
    intros H. injection H as H _ _ _.
    pose proof (Rmin_l 0 (Rmin 1 (Rmin 2 0))). lra.
  - apply (@fit_error_keeps_coefs cautious observations_A data_A None world_A _ Hr).
Qed.

(** ** A single observation *)

(** With one observation the start value of the kernel is the distance
    from the observation to itself, and nothing is compared with it. *)
Lemma nearest_single (e n v : R) : nearest ([e], [n], [v]) 0 = 0.
Proof.
  unfold nearest. cbn [length seq fold_left]. unfold scan. cbn [Nat.eqb negb].
  unfold seed, getitem. cbn [Z.of_nat Z.sub Z.add Z.opp Z.ltb Z.compare length
                              Z.pos_sub Z.to_nat nth].
  apply distance_self.
Qed.

(** C3: one observation at (0,0,0), depth factor 3, no sources given.  The
    nearest distance is taken from the observation to itself (index -1 is
    index 0), so it is 0, the derived source is the observation itself, and
    [fit] raises ZeroDivisionError in the kernel. *)
Theorem fit_single_observation :
  let w' := fst (@fit cautious observations_1 data_1 None world_1) in
  snd (@fit cautious observations_1 data_1 None world_1) = inl ZeroDivisionError /\
  exists ps,
    points_ (self w') = Some ps /\
    columns_of (heap w') ps = ([0], [0], [0 - 3 * 0]) /\
    pair_distance (columns_of (heap w') observations_1) (columns_of (heap w') ps) 0 0 = 0.
Proof.
  assert (Hv : valid_coords (heap world_1) observations_1)
    by (repeat split; vm_compute; lia).
  assert (Hc : consistent observations_1 data_1 None) by (repeat split).
  assert (Hd : allocated (heap world_1) data_1) by (vm_compute; lia).
  intros w'.
  destruct (@fit_default_result cautious observations_1 data_1 None world_1
              eq_refl Hc Hv Hd I) as ((t & Ht) & _ & Hp & _).
  fold w' in Ht, Hp.
  change (columns_of (heap world_1) observations_1) with ([0], [0], [0]) in Ht.
  change (size (fst (fst observations_1))) with 1%nat in Ht, Hp.
  cbn [default_sources fst snd length seq map] in Ht.
  rewrite nearest_single in Ht. cbn [zip_minus] in Ht.
  split.
  - rewrite (@fit_default_run cautious observations_1 data_1 None world_1 eq_refl Hc Hv).
    cbv zeta.
    change (columns_of (heap world_1) observations_1) with ([0], [0], [0]).
    change (size (fst (fst observations_1))) with 1%nat.
    cbn [default_sources fst snd length seq map].
    rewrite nearest_single. cbn [zip_minus].
    rewrite fit_tail_run
      with (pts := ((mk_ndarray (length (heap world_1) + 1) [1],
                     mk_ndarray (length (heap world_1) + 2) [1],
                     mk_ndarray (length (heap world_1) + 3) [1])%nat));
      [ | reflexivity | repeat split; vm_compute; lia | repeat split; vm_compute; lia
        | vm_compute; lia | exact I ].
    cbv zeta. cbn [heap].
    change (columns_of _ (ravelled observations_1)) with ([0], [0], [0]).
    change (columns_of _ (_, _, _)) with ([0], [0], [0 - depth_factor (self world_1) * 0]).
    change (depth_factor (self world_1)) with 3.
    assert (Hk : forall s buf,
               jacobian_numba ([0], [0], [0]) ([0], [0], [0 - 3 * 0]) s buf
               = (buf, inl ZeroDivisionError)).
    { intros s buf. unfold jacobian_numba, for_range. cbn [length seq for_in nth].
      unfold bind at 1. unfold bind at 1. unfold bind at 1.
      rewrite greens_func_zero; [ reflexivity | ].
      replace (0 - 3 * 0) with 0 by ring. apply distance_self. }
    rewrite Hk. reflexivity.
  - eexists. split; [ exact Hp | ].
    cbn [columns_of]. rewrite Ht, !contents_app_r. cbn [nth].
    rewrite columns_of_app by exact Hv.
    change (columns_of (heap world_1) observations_1) with ([0], [0], [0]).
    change (depth_factor (self world_1)) with 3.
    split; [ reflexivity | ].
    unfold pair_distance. cbn [nth].
    replace (0 - 3 * 0) with 0 by ring. apply distance_self.
Qed.

(** ** Before the first fit *)

Section Unfitted.

Context {ext : Collaborators}.

(** An estimator on which no [fit] has returned has no [coefs_]. *)
Lemma never_fitted_no_coefs (w : world) : never_fitted w -> coefs_ (self w) = None.
Proof.
  induction 1 as [ d p f h | w h _ IH | w d p f _ IH | w c data weights e _ IH He
                 | w c _ IH | w c p _ IH ]; cbn [self coefs_ __init__].
  - reflexivity.
  - exact IH.
  - exact IH.
  - rewrite (fit_error_keeps_coefs c data weights w e He). exact IH.
  - rewrite (preserves_predict coefs_ c w). exact IH.
  - rewrite (preserves_jacobian coefs_ c p w). exact IH.
Qed.

(** [jacobian] reads no attribute of the estimator. *)
Lemma jacobian_ignores_self (c p : coords) (s1 s2 : HarmonicEQL) (h : list (list R)) :
  snd (jacobian c p (mk_world s1 h)) = snd (jacobian c p (mk_world s2 h)) /\
  heap (fst (jacobian c p (mk_world s1 h))) = heap (fst (jacobian c p (mk_world s2 h))).
Proof.
  destruct c as [[c1 c2] c3], p as [[p1 p2] p3].
  unfold jacobian, np_zeros, alloc, load_columns, load, with_buffer, bind, ret.
  cbn [self heap fst snd].
  destruct (jacobian_numba _ _ _ _) as [v [ e | [] ]]; split; reflexivity.
Qed.

(** C4, amended: on an estimator on which no [fit] has returned, [predict]
    raises NotFittedError, returns nothing and changes nothing.
    [jacobian] has no such guard: its outcome and the store it leaves are
    those of the same call on any estimator, fitted or not. *)
Theorem predict_before_fit (w : world) (c : coords) :
  never_fitted w ->
  predict c w = (w, inl NotFittedError) /\
  forall (p : coords) (s : HarmonicEQL),
    snd (jacobian c p w) = snd (jacobian c p (mk_world s (heap w))) /\
    heap (fst (jacobian c p w)) = heap (fst (jacobian c p (mk_world s (heap w)))).
Proof.
  intros Hnf. split.
  - apply never_fitted_no_coefs in Hnf.
    unfold predict, bind at 1, check_is_fitted. rewrite bind_get.
    cbn [forallb hasattr]. now rewrite Hnf.
  - intros p s. destruct w as [s0 h]. apply jacobian_ignores_self.
Qed.

End Unfitted.

(** A created estimator whose first [fit] was rejected by the solver. *)
Lemma predict_before_fit_witness :
  let w := fst (@fit cautious observations_A data_A None world_A0) in
  @never_fitted cautious w /\
  predict observations_A w = (w, inl NotFittedError).
Proof.
  intros w.
  assert (Hnf : @never_fitted cautious w).
  { apply (@nf_fit cautious world_A0 observations_A data_A None
                   (LeastSquaresError SingularSystem)).
    - apply nf_init.
    - apply fit_A_rejected; reflexivity. }
  split; [ exact Hnf | ].
  exact (proj1 (@predict_before_fit cautious w observations_A Hnf)).
Defined.

(** C4, counterexample: on an estimator that was only created, [jacobian]
    does not raise NotFittedError: it returns the matrix. *)
Lemma jacobian_before_fit :
  @never_fitted cautious world_A0 /\
  exists w' jac, jacobian observations_A sources_A world_A0 = (w', inr jac).
Proof.
  split; [ apply nf_init | ].
  rewrite (jacobian_run observations_A sources_A world_A0)
    by (repeat split; vm_compute; lia).
  destruct (jacobian_numba_run (columns_of store_A observations_A)
              (columns_of store_A sources_A) (repeat 0 3))
    as (buf' & Hrun & _ & _).
  - reflexivity.
  - intros i j Hi Hj. pose proof (apart_A [] i j Hi Hj) as H.
    now rewrite app_nil_r in H.
  - change (jacobian_numba (columns_of store_A observations_A)
              (columns_of store_A sources_A) [3%nat; 1%nat] (repeat 0 3)
            = (buf', inr tt)) in Hrun.
    cbv zeta. cbn [heap world_A0].
    change (size (fst (fst observations_A))) with 3%nat.
    change (size (fst (fst sources_A))) with 1%nat.
    change (prod_shape [3%nat; 1%nat]) with 3%nat.
    rewrite Hrun. cbn [fst snd]. eexists _, _. reflexivity.
Qed.

(** ** When the kernels raise *)

(** A loop whose turns either complete or raise [e] either completes or
    raises [e]. *)
Lemma for_in_outcomes {S : Type} (e : exn) (body : nat -> M S unit) (l : list nat) :
  (forall i s, In i l -> snd (body i s) = inr tt \/ snd (body i s) = inl e) ->
  forall s, snd (for_in l body s) = inr tt \/ snd (for_in l body s) = inl e.
Proof.
  induction l as [ | i l IH ]; intros Hbody s; simpl.
  - now left.
  - unfold bind. specialize (Hbody i s (or_introl eq_refl)) as Hi.
    destruct (body i s) as [s' [ e' | [] ]]; simpl in *.
    + destruct Hi as [ Hi | Hi ]; [ discriminate Hi | now right ].
    + apply IH. intros k s0 Hk. apply Hbody. now right.
Qed.

(** It raises as soon as one of its turns raises from every state. *)
Lemma for_in_raises {S : Type} (e : exn) (body : nat -> M S unit) (l : list nat) :
  (forall i s, In i l -> snd (body i s) = inr tt \/ snd (body i s) = inl e) ->
  (exists i, In i l /\ forall s, snd (body i s) = inl e) ->
  forall s, snd (for_in l body s) = inl e.
Proof.
  induction l as [ | i l IH ]; intros Hbody (k & Hk & Hraise) s; simpl.
  - destruct Hk.
  - unfold bind. specialize (Hbody i s (or_introl eq_refl)) as Hi.
    destruct (body i s) as [s' [ e' | [] ]] eqn:Ebody; simpl in *.
    + destruct Hi as [ Hi | Hi ]; [ discriminate Hi | exact Hi ].
    + destruct Hk as [ <- | Hk ].
      * specialize (Hraise s). rewrite Ebody in Hraise. discriminate Hraise.
      * apply IH; [ intros j s0 Hj; apply Hbody; now right | now exists k ].
Qed.

Lemma greens_func_outcome (e1 n1 v1 e2 n2 v2 : R) :
  (distance e1 n1 v1 e2 n2 v2 = 0 /\
   greens_func e1 n1 v1 e2 n2 v2 = inl ZeroDivisionError) \/
  (distance e1 n1 v1 e2 n2 v2 <> 0 /\
   greens_func e1 n1 v1 e2 n2 v2 = inr (1 / distance e1 n1 v1 e2 n2 v2)).
Proof.
  destruct (Req_dec_T (distance e1 n1 v1 e2 n2 v2) 0) as [ H | H ].
  - left. split; [ exact H | now apply greens_func_zero ].
  - right. split; [ exact H | now apply greens_func_ok ].
Qed.

(** The Jacobian kernel raises ZeroDivisionError when one of the pairs it
    visits is at distance zero, and completes otherwise. *)
Lemma jacobian_numba_raises (xs ps : columns) (s : list nat) (buf : list R) :
  (exists i j, (i < length (fst (fst xs)))%nat /\ (j < length (fst (fst ps)))%nat /\
               pair_distance xs ps i j = 0) ->
  snd (jacobian_numba xs ps s buf) = inl ZeroDivisionError.
Proof.
  destruct xs as [[east north] vertical], ps as [[point_east point_north] point_vertical].
  cbn [fst]. intros (i & j & Hi & Hj & Hd).
  unfold jacobian_numba, for_range.
  assert (Hinner : forall i0 j0 b,
             snd ((g <- lift (greens_func east.[i0] north.[i0] vertical.[i0]
                                point_east.[j0] point_north.[j0] point_vertical.[j0]) ;;
                   modify (list_set (offset2 s i0 j0) g)) b) = inr tt \/
             snd ((g <- lift (greens_func east.[i0] north.[i0] vertical.[i0]
                                point_east.[j0] point_north.[j0] point_vertical.[j0]) ;;
                   modify (list_set (offset2 s i0 j0) g)) b) = inl ZeroDivisionError).
  { intros i0 j0 b. unfold bind, lift.
    destruct (greens_func_outcome east.[i0] north.[i0] vertical.[i0]
                point_east.[j0] point_north.[j0] point_vertical.[j0])
      as [ (_ & ->) | (_ & ->) ]; [ now right | now left ]. }
  apply for_in_raises.
  - intros i0 b _. apply for_in_outcomes. intros j0 b0 _. apply Hinner.
  - exists i. split; [ apply in_seq; lia | ]. intros b.
    apply for_in_raises.
    + intros j0 b0 _. apply Hinner.
    + exists j. split; [ apply in_seq; lia | ]. intros b0.
      unfold bind, lift. unfold pair_distance in Hd.
      now rewrite (greens_func_zero _ _ _ _ _ _ Hd).
Qed.

Lemma predict_numba_raises (xs ps : columns) (cs buf : list R) :
  (exists i j, (i < length (fst (fst xs)))%nat /\ (j < length (fst (fst ps)))%nat /\
               pair_distance xs ps i j = 0) ->
  snd (predict_numba xs ps cs buf) = inl ZeroDivisionError.
Proof.
  destruct xs as [[east north] vertical], ps as [[point_east point_north] point_vertical].
  cbn [fst]. intros (i & j & Hi & Hj & Hd).
  unfold predict_numba, for_range.
  assert (Hinner : forall i0 j0 b,
             snd ((result <- get ;;
                   g <- lift (greens_func east.[i0] north.[i0] vertical.[i0]
                                point_east.[j0] point_north.[j0] point_vertical.[j0]) ;;
                   modify (list_set i0 (result.[i0] + cs.[j0] * g))) b) = inr tt \/
             snd ((result <- get ;;
                   g <- lift (greens_func east.[i0] north.[i0] vertical.[i0]
                                point_east.[j0] point_north.[j0] point_vertical.[j0]) ;;
                   modify (list_set i0 (result.[i0] + cs.[j0] * g))) b)
             = inl ZeroDivisionError).
  { intros i0 j0 b. rewrite bind_get. unfold bind, lift.
    destruct (greens_func_outcome east.[i0] north.[i0] vertical.[i0]
                point_east.[j0] point_north.[j0] point_vertical.[j0])
      as [ (_ & ->) | (_ & ->) ]; [ now right | now left ]. }
  apply for_in_raises.
  - intros i0 b _. apply for_in_outcomes. intros j0 b0 _. apply Hinner.
  - exists i. split; [ apply in_seq; lia | ]. intros b.
    apply for_in_raises.
    + intros j0 b0 _. apply Hinner.
    + exists j. split; [ apply in_seq; lia | ]. intros b0.
      rewrite bind_get. unfold bind, lift. unfold pair_distance in Hd.
      now rewrite (greens_func_zero _ _ _ _ _ _ Hd).
Qed.

(** Among finitely many pairs, one is at distance zero or none is. *)
Lemma coincidence_dec (xs ps : columns) (n m : nat) :
  (exists i j, (i < n)%nat /\ (j < m)%nat /\ pair_distance xs ps i j = 0) \/
  (forall i j, (i < n)%nat -> (j < m)%nat -> pair_distance xs ps i j <> 0).
Proof.
  assert (Hrow : forall i k,
             (exists j, (j < k)%nat /\ pair_distance xs ps i j = 0) \/
             (forall j, (j < k)%nat -> pair_distance xs ps i j <> 0)).
  { intros i k. induction k as [ | k IH ].
    - right. intros j Hj. lia.
    - destruct IH as [ (j & Hj & Hd) | IH ].
      + left. exists j. split; [ lia | exact Hd ].
      + destruct (Req_dec_T (pair_distance xs ps i k) 0) as [ Hd | Hd ].
        * left. exists k. split; [ lia | exact Hd ].
        * right. intros j Hj. destruct (Nat.eq_dec j k) as [ -> | Hne ];
            [ exact Hd | apply IH; lia ]. }
  induction n as [ | n IH ].
  - right. intros i j Hi. lia.
  - destruct IH as [ (i & j & Hi & Hj & Hd) | IH ].
    + left. exists i, j. repeat split; [ lia | exact Hj | exact Hd ].
    + destruct (Hrow n m) as [ (j & Hj & Hd) | Hn ].
      * left. exists n, j. repeat split; [ lia | exact Hj | exact Hd ].
      * right. intros i j Hi Hj. destruct (Nat.eq_dec i n) as [ -> | Hne ];
          [ now apply Hn | apply IH; [ lia | exact Hj ] ].
Qed.

Lemma jacobian_numba_ok_inv (xs ps : columns) (s : list nat) (buf : list R) :
  snd (jacobian_numba xs ps s buf) = inr tt ->
  forall i j, (i < length (fst (fst xs)))%nat -> (j < length (fst (fst ps)))%nat ->
              pair_distance xs ps i j <> 0.
Proof.
  intros Hok.
  destruct (coincidence_dec xs ps (length (fst (fst xs))) (length (fst (fst ps))))
    as [ Hex | Hall ]; [ | exact Hall ].
  rewrite (jacobian_numba_raises xs ps s buf Hex) in Hok. discriminate Hok.
Qed.

Lemma for_in_completes {S : Type} (body : nat -> M S unit) (l : list nat) :
  (forall i s, In i l -> snd (body i s) = inr tt) ->
  forall s, snd (for_in l body s) = inr tt.
Proof.
  induction l as [ | i l IH ]; intros Hbody s; simpl.
  - reflexivity.
  - unfold bind. specialize (Hbody i s (or_introl eq_refl)) as Hi.
    destruct (body i s) as [s' [ e' | [] ]]; simpl in *; [ discriminate Hi | ].
    apply IH. intros k s0 Hk. apply Hbody. now right.
Qed.

(** The Jacobian kernel completes when no pair it visits is at distance
    zero, whatever the buffer. *)
Lemma jacobian_numba_completes (xs ps : columns) (s : list nat) (buf : list R) :
  (forall i j, (i < length (fst (fst xs)))%nat -> (j < length (fst (fst ps)))%nat ->
               pair_distance xs ps i j <> 0) ->
  snd (jacobian_numba xs ps s buf) = inr tt.
Proof.
  destruct xs as [[east north] vertical], ps as [[point_east point_north] point_vertical].
  cbn [fst]. intros Hd. unfold jacobian_numba, for_range.
  apply for_in_completes. intros i b Hi. apply in_seq in Hi.
  apply for_in_completes. intros j b0 Hj. apply in_seq in Hj.
  specialize (Hd i j ltac:(lia) ltac:(lia)). unfold pair_distance in Hd.
  unfold bind, lift. now rewrite (greens_func_ok _ _ _ _ _ _ Hd).
Qed.

(** ** The nearest distances *)

Lemma pair_distance_nonneg (xs ps : columns) (i j : nat) : 0 <= pair_distance xs ps i j.
Proof.
  destruct xs as [[e n] v], ps as [[pe pn] pv]. apply distance_nonneg.
Qed.

Lemma pair_distance_zero_iff (xs : columns) (i j : nat) :
  pair_distance xs xs i j = 0 <-> same_point xs i j.
Proof.
  destruct xs as [[e n] v]. unfold pair_distance, same_point. split.
  - apply distance_zero_inv.
  - intros (-> & -> & ->). apply distance_self.
Qed.

Lemma seed_nonneg (xs : columns) (i : nat) : 0 <= seed xs i.
Proof. destruct xs as [[e n] v]. apply distance_nonneg. Qed.

Lemma nearest_nonneg (xs : columns) (i : nat) : 0 <= nearest xs i.
Proof.
  pose proof (scan_fold xs i) as H.
  destruct xs as [[e n] v]. unfold nearest.
  specialize (H (seq 0 (length e)) (seed (e, n, v) i)). cbv zeta in H.
  destruct H as ([ -> | (j & _ & _ & ->) ] & _).
  - apply seed_nonneg.
  - apply pair_distance_nonneg.
Qed.

Lemma nearest_zero_distance_iff (xs : columns) (n i : nat) :
  columns_length xs n -> (2 <= n)%nat -> (i < n)%nat ->
  (nearest xs i = 0 <->
   exists j, (j < n)%nat /\ j <> i /\ pair_distance xs xs i j = 0).
Proof.
  intros Hlen H2 Hi. pose proof (nearest_is_min xs i) as Hmin.
  destruct xs as [[e nn] v]. destruct Hlen as (He & Hn & Hv).
  rewrite He in Hmin. specialize (Hmin ltac:(congruence) ltac:(congruence) H2 Hi).
  destruct Hmin as ((j & Hj & Hne & Hm) & Hle). split.
  - intros H0. exists j. split; [ exact Hj | ]. split; [ exact Hne | congruence ].
  - intros (k & Hk & Hki & Hz).
    specialize (Hle k Hk Hki). pose proof (nearest_nonneg (e, nn, v) i). lra.
Qed.

Lemma nearest_zero_iff (xs : columns) (n i : nat) :
  columns_length xs n -> (2 <= n)%nat -> (i < n)%nat ->
  (nearest xs i = 0 <-> exists j, (j < n)%nat /\ j <> i /\ same_point xs i j).
Proof.
  intros Hlen H2 Hi. pose proof (nearest_is_min xs i) as Hmin.
  destruct xs as [[e nn] v]. destruct Hlen as (He & Hn & Hv).
  rewrite He in Hmin. specialize (Hmin ltac:(congruence) ltac:(congruence) H2 Hi).
  destruct Hmin as ((j & Hj & Hne & Hm) & Hle). split.
  - intros H0. exists j. split; [ exact Hj | ]. split; [ exact Hne | ].
    apply pair_distance_zero_iff. congruence.
  - intros (k & Hk & Hki & Hsame). apply pair_distance_zero_iff in Hsame.
    specialize (Hle k Hk Hki). pose proof (nearest_nonneg (e, nn, v) i). lra.
Qed.

(** X4: on n >= 2 observations, whatever the output buffer held, the
    nearest-distance kernel completes and overwrites every entry with a
    non-negative number, which is zero exactly when the distance from
    observation i to another observation is zero; it is zero, then, when
    another observation is the same point as observation i. *)
Theorem nearest_distances_zero_on_duplicates (xs : columns) (n : nat) (buf : list R) :
  columns_length xs n -> length buf = n -> (2 <= n)%nat ->
  exists buf',
    distance_to_nearest_point xs buf = (buf', inr tt) /\
    length buf' = n /\
    forall i, (i < n)%nat ->
      0 <= buf'.[i] /\
      (buf'.[i] = 0 <->
       exists j, (j < n)%nat /\ j <> i /\ pair_distance xs xs i j = 0) /\
      ((exists j, (j < n)%nat /\ j <> i /\ same_point xs i j) -> buf'.[i] = 0).
Proof.
  intros Hlen Hbuf H2.
  assert (He : length (fst (fst xs)) = n) by (destruct xs as [[e nn] v]; apply Hlen).
  rewrite distance_to_nearest_point_run by congruence. rewrite He.
  eexists. split; [ reflexivity | ]. split; [ now rewrite length_map, length_seq | ].
  intros i Hi.
  rewrite (nth_indep (map _ _) 0 (nearest xs 0%nat)) by (rewrite length_map, length_seq; lia).
  rewrite map_nth, seq_nth by lia. cbn [Nat.add].
  split; [ apply nearest_nonneg | ].
  split; [ now apply nearest_zero_distance_iff | ].
  intros (j & Hj & Hne & Hsame).
  apply (nearest_zero_distance_iff xs n i Hlen H2 Hi).
  exists j. split; [ exact Hj | ]. split; [ exact Hne | ].
  destruct xs as [[e nn] v]. destruct Hsame as (E1 & E2 & E3).
  unfold pair_distance. rewrite E1, E2, E3. apply distance_self.
Qed.

(** Two observations at the same place, (0,0,0), and one at (10,0,0). *)
Lemma nearest_distances_zero_on_duplicates_witness :
  columns_length ([0; 0; 10], [0; 0; 0], [0; 0; 0]) 3 /\
  exists buf',
    distance_to_nearest_point ([0; 0; 10], [0; 0; 0], [0; 0; 0]) [7; 7; 7]
    = (buf', inr tt) /\
    buf'.[0] = 0 /\ buf'.[1] = 0 /\ buf'.[2] <> 0.
Proof.
  assert (Hlen : columns_length ([0; 0; 10], [0; 0; 0], [0; 0; 0]) 3) by (repeat split).
  split; [ exact Hlen | ].
  destruct (nearest_distances_zero_on_duplicates
              ([0; 0; 10], [0; 0; 0], [0; 0; 0]) 3 [7; 7; 7] Hlen eq_refl)
    as (buf' & Hrun & _ & Hall); [ lia | ].
  exists buf'. split; [ exact Hrun | ].
  destruct (Hall 0%nat) as (_ & _ & H0); [ lia | ].
  destruct (Hall 1%nat) as (_ & _ & H1); [ lia | ].
  destruct (Hall 2%nat) as (_ & H2 & _); [ lia | ].
  split; [ | split ].
  - apply H0. exists 1%nat. repeat split; lia.
  - apply H1. exists 0%nat. repeat split; lia.
  - intros Hz. apply H2 in Hz. destruct Hz as (j & Hj & Hne & Hd).
    apply distance_zero_inv in Hd. destruct Hd as (He & _).
    destruct j as [ | [ | [ | j ] ] ]; cbn [nth] in He; try lra; lia.
Defined.

(** ** Coincident points *)


(** The matrix [jacobian] returns and the world it leaves, when no data
    point is on a source. *)
Lemma jacobian_result (w : world) (c p : coords) :
  valid_coords (heap w) c -> valid_coords (heap w) p ->
  let xs := columns_of (heap w) c in
  let ps := columns_of (heap w) p in
  let n := size (fst (fst c)) in
  let m := size (fst (fst p)) in
  (forall i j, (i < n)%nat -> (j < m)%nat -> pair_distance xs ps i j <> 0) ->
  exists J,
    jacobian c p w
    = (mk_world (self w) (heap w ++ [J]), inr (mk_ndarray (length (heap w)) [n; m])) /\
    length J = (n * m)%nat /\
    forall i j, (i < n)%nat -> (j < m)%nat ->
                J.[offset2 [n; m] i j] = 1 / pair_distance xs ps i j.
Proof.
  intros Hc Hp xs ps n m Hd.
  rewrite (jacobian_run c p w Hc Hp). fold xs. fold ps. fold n. fold m.
  pose proof (length_first_column _ _ Hc) as Hn. fold xs in Hn. fold n in Hn.
  pose proof (length_first_column _ _ Hp) as Hm. fold ps in Hm. fold m in Hm.
  destruct (jacobian_numba_run xs ps (repeat 0 (prod_shape [n; m])))
    as (buf' & Hrun & Hlen & Hval).
  - rewrite repeat_length, Hn, Hm. unfold prod_shape. simpl. lia.
  - rewrite Hn, Hm. exact Hd.
  - rewrite Hn, Hm in Hrun, Hlen, Hval. rewrite Hrun. cbn [fst snd].
    exists buf'. split; [ reflexivity | ]. split; [ exact Hlen | exact Hval ].
Qed.

(** X1: on 1-d arrays of n data points and m sources, [jacobian] raises
    ZeroDivisionError, and returns no matrix, exactly when some data point
    is at distance zero from some source; it raises nothing else, and it
    returns a matrix when there is no such pair. *)
Theorem jacobian_raises_iff_coincident (w : world) (c p : coords) (n m : nat) :
  valid_coords (heap w) c -> valid_coords (heap w) p ->
  shapes_1d c n -> shapes_1d p m ->
  let xs := columns_of (heap w) c in
  let ps := columns_of (heap w) p in
  let coincident :=
    exists i j, (i < n)%nat /\ (j < m)%nat /\ pair_distance xs ps i j = 0 in
  (coincident <-> snd (jacobian c p w) = inl ZeroDivisionError) /\
  (~ coincident <-> exists jac, snd (jacobian c p w) = inr jac) /\
  (forall e, snd (jacobian c p w) = inl e -> e = ZeroDivisionError).
Proof.
  intros Hc Hp Hsc Hsp xs ps coincident.
  assert (Hsn : size (fst (fst c)) = n).
  { destruct c as [[a1 a2] a3]. destruct Hsc as (H1 & _). now apply size_of_shape_1d. }
  assert (Hsm : size (fst (fst p)) = m).
  { destruct p as [[a1 a2] a3]. destruct Hsp as (H1 & _). now apply size_of_shape_1d. }
  pose proof (length_first_column _ _ Hc) as Hn. fold xs in Hn. rewrite Hsn in Hn.
  pose proof (length_first_column _ _ Hp) as Hm. fold ps in Hm. rewrite Hsm in Hm.
  assert (Hraise : coincident -> snd (jacobian c p w) = inl ZeroDivisionError).
  { intros Hex. rewrite (jacobian_run c p w Hc Hp). cbn [snd]. fold xs. fold ps.
    rewrite jacobian_numba_raises; [ reflexivity | ]. now rewrite Hn, Hm. }
  assert (Hok : ~ coincident -> exists jac, snd (jacobian c p w) = inr jac).
  { intros Hno.
    destruct (jacobian_result w c p Hc Hp) as (J & Hrun & _).
    - rewrite Hsn, Hsm. intros i j Hi Hj Hd. apply Hno. now exists i, j.
    - rewrite Hrun. cbn [snd]. eexists. reflexivity. }
  assert (Hdec : coincident \/ ~ coincident).
  { destruct (coincidence_dec xs ps n m) as [ H | H ]; [ now left | right ].
    intros (i & j & Hi & Hj & Hd). exact (H i j Hi Hj Hd). }
  split; [ | split ].
  - split; [ exact Hraise | ]. intros He.
    destruct Hdec as [ H | H ]; [ exact H | ].
    destruct (Hok H) as (jac & Hjac). rewrite He in Hjac. discriminate Hjac.
  - split; [ exact Hok | ]. intros (jac & Hjac) Hex.
    rewrite (Hraise Hex) in Hjac. discriminate Hjac.
  - intros e He. destruct Hdec as [ H | H ].
    + rewrite (Hraise H) in He. now injection He as <-.
    + destruct (Hok H) as (jac & Hjac). rewrite He in Hjac. discriminate Hjac.
Qed.

(** The Jacobian of the source of scenario A against itself. *)
Lemma jacobian_raises_iff_coincident_witness :
  valid_coords (heap world_A) sources_A /\ shapes_1d sources_A 1 /\
  snd (jacobian sources_A sources_A world_A) = inl ZeroDivisionError.
Proof.
  assert (Hv : valid_coords (heap world_A) sources_A) by (repeat split; vm_compute; lia).
  assert (Hs : shapes_1d sources_A 1) by (repeat split).
  split; [ exact Hv | ]. split; [ exact Hs | ].
  apply (proj1 (jacobian_raises_iff_coincident world_A sources_A sources_A 1 1
                  Hv Hv Hs Hs)).
  exists 0%nat, 0%nat. split; [ lia | ]. split; [ lia | ].
  unfold pair_distance. cbn. apply distance_self.
Defined.



(** X2: on a fitted estimator, [predict] raises ZeroDivisionError, returns
    nothing and assigns no attribute, when one of the query points is at
    distance zero from one of the sources. *)
Theorem predict_raises_on_source (w : world) (c ps : coords) (cf : ndarray)
        (s : list nat) :
  coefs_ (self w) = Some cf -> points_ (self w) = Some ps ->
  valid_coords (heap w) c -> valid_coords (heap w) ps -> allocated (heap w) cf ->
  shapes_eq c s ->
  (exists i j, (i < prod_shape s)%nat /\ (j < size (fst (fst ps)))%nat /\
               pair_distance (columns_of (heap w) c) (columns_of (heap w) ps) i j = 0) ->
  snd (predict c w) = inl ZeroDivisionError /\ self (fst (predict c w)) = self w.
Proof.
  intros Hcf Hps Hc Hp Hacf Hsc Hex.
  pose proof (broadcast3_same c s Hsc) as Hb.
  rewrite (predict_run c w Hc); [ | now rewrite Hps | now rewrite Hcf ].
  rewrite Hcf, Hb, Hps. cbv zeta. cbn [fst snd self].
  split; [ | reflexivity ].
  rewrite predict_numba_raises; [ reflexivity | ].
  rewrite (length_first_column _ _ Hc), (length_first_column _ _ Hp).
  destruct c as [[a1 a2] a3]. destruct Hsc as (H1 & _). cbn [fst].
  unfold size. now rewrite H1.
Qed.

(** The estimator of scenario A asked for the value at its own source. *)
Lemma predict_raises_on_source_witness :
  shapes_eq (ravelled sources_A) [1%nat] /\
  snd (predict (ravelled sources_A) world_Q) = inl ZeroDivisionError.
Proof.
  assert (Hs : shapes_eq (ravelled sources_A) [1%nat]) by (repeat split).
  split; [ exact Hs | ].
  apply (predict_raises_on_source world_Q (ravelled sources_A) (ravelled sources_A)
           coefs_A [1%nat] eq_refl eq_refl valid_Q_sources valid_Q_sources).
  - vm_compute. lia.
  - exact Hs.
  - exists 0%nat, 0%nat. split; [ vm_compute; lia | ]. split; [ vm_compute; lia | ].
    unfold pair_distance. cbn. apply distance_self.
Defined.

(** ** The whole of fit *)

Lemma columns_of_ravelled (h : list (list R)) (c : coords) :
  columns_of h (ravelled c) = columns_of h c.
Proof.
  destruct c as [[a1 a2] a3]. unfold ravelled, columns_of.
  now rewrite !ravel_atleast_1d, !contents_view.
Qed.

Lemma columns_length_valid (h : list (list R)) (c : coords) (data : ndarray)
      (weights : option ndarray) :
  consistent c data weights -> valid_coords h c ->
  columns_length (columns_of h c) (size (fst (fst c))).
Proof.
  destruct c as [[east north] vertical].
  intros (Hn & Hv & _) ((_ & Hle) & (_ & Hln) & (_ & Hlv)).
  cbn [columns_of columns_length fst]. unfold size in *.
  rewrite Hle, Hln, Hlv, Hn, Hv. auto.
Qed.

Section Whole.

Context {ext : Collaborators}.

(** [fit] is its last statements run in a world where [points_] holds the
    sources of this call: the caller's arrays seen as 1-d arrays, or new
    arrays with the default sources. *)
Lemma fit_as_tail (c : coords) (data : ndarray) (weights : option ndarray) (w : world) :
  consistent c data weights ->
  valid_coords (heap w) c ->
  valid_option (valid_coords (heap w)) (points (self w)) ->
  exists placed pts,
    fit c data weights w = fit_tail (ravelled c) data weights (damping (self w)) placed /\
    points_ (self placed) = Some pts /\
    coefs_ (self placed) = coefs_ (self w) /\
    extends (heap w) (heap placed) /\
    valid_coords (heap placed) pts /\
    match points (self w) with
    | Some p => pts = ravelled p
    | None =>
        shapes_1d pts (size (fst (fst c))) /\
        columns_of (heap placed) pts
        = default_sources (columns_of (heap w) c) (depth_factor (self w))
    end.
Proof.
  intros Hcons Hvalid Hvp.
  pose proof (columns_length_valid _ _ _ _ Hcons Hvalid) as Hlen.
  destruct (points (self w)) as [ p | ] eqn:Hpts.
  - cbn [valid_option] in Hvp.
    eexists _, (ravelled p).
    split; [ exact (fit_user_run c p data weights w Hpts Hcons) | ].
    cbn [self heap]. split; [ reflexivity | ]. split; [ reflexivity | ].
    split; [ apply extends_refl | ]. split; [ now apply valid_ravelled | reflexivity ].
  - eexists _, _.
    split; [ exact (fit_default_run c data weights w Hpts Hcons Hvalid) | ].
    cbv zeta. cbn [self heap set_points_ points_ coefs_ set_region_].
    set (n := size (fst (fst c))) in *.
    set (xs := columns_of (heap w) c) in *.
    set (f := depth_factor (self w)).
    assert (Hsrc : default_sources xs f
                   = (fst (fst xs), snd (fst xs),
                      zip_minus (snd xs) (map (Rmult f) (map (nearest xs) (seq 0 n))))).
    { destruct xs as [[E N] V]. destruct Hlen as (HlE & _).
      cbn [default_sources fst snd]. now rewrite HlE. }
    split; [ reflexivity | ]. split; [ reflexivity | ].
    split; [ eexists; reflexivity | ].
    rewrite Hsrc. cbn [fst snd].
    destruct xs as [[E N] V]. destruct Hlen as (HlE & HlN & HlV). cbn [fst snd].
    split; [ | split; [ repeat split | ] ].
    + cbn [valid_coords]. unfold valid.
      rewrite !contents_app_r, !size_1d. cbn [nth buffer].
      rewrite !length_app. cbn [length].
      rewrite length_zip_minus, !length_map, length_seq, HlE, HlN, HlV.
      repeat split; lia.
    + cbn [columns_of]. now rewrite !contents_app_r.
Qed.

End Whole.

Section Outcomes.

Context {ext : Collaborators}.

(** The outcome of [fit] on arrays that [check_fit_input] accepts: the
    kernel runs on the observations and the sources of this call; when it
    raises, so does [fit]; when it completes, the outcome is the solver's. *)
Lemma fit_unfolded (c : coords) (data : ndarray) (weights : option ndarray) (w : world) :
  consistent c data weights ->
  valid_coords (heap w) c ->
  valid_option (valid_coords (heap w)) (points (self w)) ->
  allocated (heap w) data -> valid_option (allocated (heap w)) weights ->
  exists placed pts,
    points_ (self placed) = Some pts /\
    coefs_ (self placed) = coefs_ (self w) /\
    extends (heap w) (heap placed) /\
    valid_coords (heap placed) pts /\
    match points (self w) with
    | Some p => pts = ravelled p
    | None =>
        shapes_1d pts (size (fst (fst c))) /\
        columns_of (heap placed) pts
        = default_sources (columns_of (heap w) c) (depth_factor (self w))
    end /\
    let h := heap placed in
    let sh := [size (fst (fst (ravelled c))); size (fst (fst pts))] in
    let out := jacobian_numba (columns_of (heap w) c) (columns_of h pts) sh
                 (repeat 0 (prod_shape sh)) in
    fit c data weights w
    = match snd out with
      | inl e => (mk_world (self placed) (h ++ [fst out]), inl e)
      | inr _ =>
          match least_squares sh (fst out) (contents (heap w) data)
                  (option_map (contents (heap w)) weights) (damping (self w)) with
          | inl e => (mk_world (self placed) (h ++ [fst out]), inl (LeastSquaresError e))
          | inr cf =>
              (mk_world (set_coefs_ (mk_ndarray (S (length h)) [length cf]) (self placed))
                        (h ++ [fst out; cf]),
               inr tt)
          end
      end.
Proof.
  intros Hcons Hvalid Hvp Hd Hw.
  destruct (fit_as_tail c data weights w Hcons Hvalid Hvp)
    as (placed & pts & Hfit & Hpts & Hcoefs & (t & Ht) & Hvpts & Hsrc).
  exists placed, pts.
  split; [ exact Hpts | ]. split; [ exact Hcoefs | ].
  split; [ now exists t | ]. split; [ exact Hvpts | ]. split; [ exact Hsrc | ].
  cbv zeta. rewrite Hfit.
  rewrite (fit_tail_run (ravelled c) pts data weights (damping (self w)) placed Hpts);
    [ | rewrite Ht; apply valid_coords_extends, valid_ravelled, Hvalid
      | exact Hvpts
      | rewrite Ht; now apply allocated_extends
      | rewrite Ht; now apply valid_option_allocated_extends ].
  cbv zeta. rewrite columns_of_ravelled.
  assert (E1 : columns_of (heap placed) c = columns_of (heap w) c)
    by (rewrite Ht; now apply columns_of_app).
  assert (E2 : contents (heap placed) data = contents (heap w) data)
    by (rewrite Ht; now apply contents_app).
  assert (E3 : option_map (contents (heap placed)) weights
               = option_map (contents (heap w)) weights)
    by (rewrite Ht; now apply option_map_contents_app).
  rewrite E1, E2, E3. reflexivity.
Qed.

End Outcomes.

(** ** Where the default sources lie *)

Lemma default_sources_nth (xs : columns) (n : nat) (f : R) (i : nat) :
  columns_length xs n -> (i < n)%nat ->
  columns_length (default_sources xs f) n /\
  (fst (fst (default_sources xs f))).[i] = (fst (fst xs)).[i] /\
  (snd (fst (default_sources xs f))).[i] = (snd (fst xs)).[i] /\
  (snd (default_sources xs f)).[i] = (snd xs).[i] - f * nearest xs i.
Proof.
  destruct xs as [[E N] V]. intros (HlE & HlN & HlV) Hi.
  cbn [default_sources fst snd columns_length]. rewrite HlE.
  split; [ | split; [ reflexivity | split; [ reflexivity | ] ] ].
  - rewrite length_zip_minus, !length_map, length_seq, HlV. repeat split; auto. lia.
  - rewrite nth_zip_minus by (rewrite ?length_map, ?length_seq; lia).
    rewrite (nth_indep (map (Rmult f) _) 0 (f * 0))
      by (rewrite !length_map, length_seq; lia).
    rewrite map_nth.
    rewrite (nth_indep (map (nearest _) _) 0 (nearest (E, N, V) 0%nat))
      by (rewrite length_map, length_seq; lia).
    rewrite map_nth, seq_nth by lia. reflexivity.
Qed.

Lemma nearest_one (xs : columns) : columns_length xs 1 -> nearest xs 0 = 0.
Proof.
  destruct xs as [[E N] V]. intros (HE & HN & HV).
  destruct E as [ | e [ | ? ? ] ]; try discriminate HE.
  destruct N as [ | n [ | ? ? ] ]; try discriminate HN.
  destruct V as [ | v [ | ? ? ] ]; try discriminate HV.
  apply nearest_single.
Qed.

(** In a degenerate placement one source is on its own observation. *)
Lemma degenerate_coincident (xs : columns) (n : nat) (f : R) :
  columns_length xs n -> degenerate xs n f ->
  exists i, (i < n)%nat /\ pair_distance xs (default_sources xs f) i i = 0.
Proof.
  intros Hlen Hdeg.
  assert (Hi : exists i, (i < n)%nat /\ f * nearest xs i = 0).
  { destruct Hdeg as [ -> | [ (Hn & ->) | (i & j & Hi & Hj & Hne & Hsame) ] ].
    - exists 0%nat. split; [ lia | ]. rewrite nearest_one by exact Hlen. ring.
    - exists 0%nat. split; [ lia | ring ].
    - exists i. split; [ exact Hi | ].
      rewrite (proj2 (nearest_zero_iff xs n i Hlen ltac:(lia) Hi)); [ ring | ].
      exists j. split; [ exact Hj | ]. split; [ congruence | exact Hsame ]. }
  destruct Hi as (i & Hi & Hz). exists i. split; [ exact Hi | ].
  destruct (default_sources_nth xs n f i Hlen Hi) as (_ & He & Hn & Hv).
  destruct xs as [[E N] V], (default_sources (E, N, V) f) as [[PE PN] PV].
  cbn [fst snd] in *. unfold pair_distance. rewrite He, Hn, Hv, Hz.
  replace (V.[i] - 0) with V.[i] by ring. apply distance_self.
Qed.

Section Placement.

Context {ext : Collaborators}.

(** X5: with the default sources, [fit] raises ZeroDivisionError, and leaves
    [coefs_] as it was, whenever there is a single observation, or the depth
    factor is zero, or two observations are the same point: one source then
    lies on its own observation. *)
Theorem fit_degenerate_raises (w : world) (c : coords) (data : ndarray)
        (weights : option ndarray) :
  points (self w) = None ->
  consistent c data weights ->
  valid_coords (heap w) c ->
  allocated (heap w) data -> valid_option (allocated (heap w)) weights ->
  degenerate (columns_of (heap w) c) (size (fst (fst c))) (depth_factor (self w)) ->
  snd (fit c data weights w) = inl ZeroDivisionError /\
  coefs_ (self (fst (fit c data weights w))) = coefs_ (self w).
Proof.
  intros Hpts Hcons Hvalid Hd Hw Hdeg.
  assert (Hr : snd (fit c data weights w) = inl ZeroDivisionError).
  { pose proof (columns_length_valid _ _ _ _ Hcons Hvalid) as Hlen.
    destruct (degenerate_coincident _ _ _ Hlen Hdeg) as (i & Hi & Hz).
    destruct (fit_unfolded c data weights w Hcons Hvalid) as
      (placed & pts & _ & _ & _ & _ & Hsrc & Hfit); try assumption.
    { now rewrite Hpts. }
    rewrite Hpts in Hsrc. destruct Hsrc as (_ & Hsrc).
    cbv zeta in Hfit. rewrite Hfit, Hsrc.
    rewrite jacobian_numba_raises; [ reflexivity | ].
    exists i, i. split; [ | split; [ | exact Hz ] ].
    - destruct (columns_of (heap w) c) as [[E N] V]. cbn [fst].
      destruct Hlen as (HlE & _). now rewrite HlE.
    - destruct (default_sources_nth _ _ (depth_factor (self w)) i Hlen Hi) as (Hl & _).
      destruct (default_sources _ _) as [[PE PN] PV]. cbn [fst].
      destruct Hl as (HlP & _). now rewrite HlP. }
  split; [ exact Hr | ].
  exact (fit_error_keeps_coefs c data weights w _ Hr).
Qed.

(** X6: with the default sources, on n >= 1 observations, [fit] leaves in
    [points_] the sources it derived, and it raises ZeroDivisionError
    exactly when some observation is at distance zero from one of them;
    otherwise the kernel completes and the outcome of [fit] is the
    solver's. *)
Theorem fit_default_raises_iff_coincident (w : world) (c : coords) (data : ndarray)
        (weights : option ndarray) :
  points (self w) = None ->
  consistent c data weights ->
  valid_coords (heap w) c ->
  allocated (heap w) data -> valid_option (allocated (heap w)) weights ->
  let xs := columns_of (heap w) c in
  let n := size (fst (fst c)) in
  (1 <= n)%nat ->
  let srcs := default_sources xs (depth_factor (self w)) in
  let w' := fst (fit c data weights w) in
  let r := snd (fit c data weights w) in
  let coincident :=
    exists i j, (i < n)%nat /\ (j < n)%nat /\ pair_distance xs srcs i j = 0 in
  (exists pts, points_ (self w') = Some pts /\ columns_of (heap w') pts = srcs) /\
  (coincident <-> r = inl ZeroDivisionError) /\
  (~ coincident <-> r = inr tt \/ exists e, r = inl (LeastSquaresError e)).
Proof.
  intros Hpts Hcons Hvalid Hd Hw xs n H1 srcs w' r coincident.
  pose proof (columns_length_valid _ _ _ _ Hcons Hvalid) as Hlen.
  fold xs in Hlen. fold n in Hlen.
  split.
  { destruct (fit_default_result c data weights w Hpts Hcons Hvalid Hd Hw)
      as ((t & Ht) & _ & Hp & _).
    fold w' in Ht, Hp. fold n in Ht, Hp. fold xs in Ht. fold srcs in Ht.
    eexists. split; [ exact Hp | ].
    cbn [columns_of]. rewrite Ht, !contents_app_r. cbn [nth].
    now destruct srcs as [[PE PN] PV]. }
  destruct (fit_unfolded c data weights w Hcons Hvalid) as
    (placed & pts & _ & _ & _ & Hvpts & Hsrc & Hfit); try assumption.
  { now rewrite Hpts. }
  rewrite Hpts in Hsrc. destruct Hsrc as (Hshape & Hsrc).
  cbv zeta in Hfit. fold xs in Hfit, Hsrc. fold srcs in Hsrc. rewrite Hsrc in Hfit.
  assert (HlE : length (fst (fst xs)) = n) by (destruct xs as [[E N] V]; apply Hlen).
  assert (HlP : length (fst (fst srcs)) = n).
  { destruct (default_sources_nth xs n (depth_factor (self w)) 0 Hlen ltac:(lia))
      as (Hl & _).
    fold srcs in Hl. destruct srcs as [[PE PN] PV]. apply Hl. }
  set (sh := [size (fst (fst (ravelled c))); size (fst (fst pts))]) in *.
  assert (Hraise : coincident -> r = inl ZeroDivisionError).
  { intros Hex. subst r. rewrite Hfit.
    rewrite jacobian_numba_raises; [ reflexivity | now rewrite HlE, HlP ]. }
  assert (Hok : ~ coincident -> r = inr tt \/ exists e, r = inl (LeastSquaresError e)).
  { intros Hno.
    assert (Hk : snd (jacobian_numba xs srcs sh (repeat 0 (prod_shape sh))) = inr tt).
    { apply jacobian_numba_completes. rewrite HlE, HlP. intros i j Hi Hj Hz.
      apply Hno. now exists i, j. }
    subst r. rewrite Hk in Hfit.
    destruct (least_squares _ _ _ _ _) as [ e | cf ]; rewrite Hfit; cbn [snd].
    - right. now exists e.
    - now left. }
  assert (Hdec : coincident \/ ~ coincident).
  { destruct (coincidence_dec xs srcs n n) as [ H | H ]; [ now left | right ].
    intros (i & j & Hi & Hj & Hz). exact (H i j Hi Hj Hz). }
  split; split.
  - exact Hraise.
  - intros Hr. destruct Hdec as [ H | H ]; [ exact H | ].
    destruct (Hok H) as [ Hr' | (e & Hr') ]; rewrite Hr in Hr'; discriminate Hr'.
  - exact Hok.
  - intros Hr Hex. rewrite (Hraise Hex) in Hr.
    destruct Hr as [ Hr | (e & Hr) ]; discriminate Hr.
Qed.

End Placement.

Lemma distinct_B (i j : nat) :
  (i < 2)%nat -> (j < 2)%nat -> i <> j ->
  ~ same_point (columns_of (heap world_B) observations_B) i j.
Proof.
  intros Hi Hj Hne (He & _). cbn in He.
  destruct i as [ | [ | i ] ], j as [ | [ | j ] ]; cbn [nth] in He; try lia; lra.
Qed.

(** Scenario B of the spec: the sources are at the vertical -30, away from
    the observations, so the solver is reached (and rejects the system,
    which has no damping). *)
Lemma fit_default_raises_iff_coincident_witness :
  (1 <= size (fst (fst observations_B)))%nat /\
  (snd (@fit cautious observations_B data_B None world_B) = inr tt \/
   exists e, snd (@fit cautious observations_B data_B None world_B)
             = inl (LeastSquaresError e)).
Proof.
  assert (H1 : (1 <= size (fst (fst observations_B)))%nat) by (vm_compute; lia).
  split; [ exact H1 | ].
  assert (Hlen : columns_length (columns_of (heap world_B) observations_B) 2)
    by (repeat split).
  pose proof (@fit_default_raises_iff_coincident cautious world_B observations_B data_B
                None eq_refl ltac:(repeat split) ltac:(repeat split; vm_compute; lia)
                ltac:(vm_compute; lia) I H1) as H.
  cbv zeta in H. destruct H as (_ & _ & Hok). apply (proj1 Hok).
  intros (i & j & Hi & Hj & Hz).
  change (size (fst (fst observations_B))) with 2%nat in Hi, Hj.
  change (depth_factor (self world_B)) with 3 in Hz.
  destruct (default_sources_nth _ 2 3 j Hlen Hj) as (_ & _ & _ & Hv).
  assert (Hpos : nearest (columns_of (heap world_B) observations_B) j <> 0).
  { intros Hn. apply (nearest_zero_iff _ 2 j Hlen ltac:(lia) Hj) in Hn.
    destruct Hn as (k & Hk & Hne & Hsame).
    apply (distinct_B j k Hj Hk); [ congruence | exact Hsame ]. }
  assert (Hvert : forall k, (k < 2)%nat ->
                        (snd (columns_of (heap world_B) observations_B)).[k] = 0)
    by (intros [ | [ | k ] ] Hk; try lia; reflexivity).
  rewrite (Hvert j Hj) in Hv. pose proof (Hvert i Hi) as Hvi.
  revert Hz.
  destruct (default_sources _ _) as [[PE PN] PV].
  destruct (columns_of (heap world_B) observations_B) as [[E N] V].
  cbn [fst snd] in Hv, Hvi. unfold pair_distance.
  apply distance_vertical_apart. rewrite Hv, Hvi. lra.
Defined.

(** The single observation at (0,0,0). *)
Lemma fit_degenerate_raises_witness :
  degenerate (columns_of (heap world_1) observations_1) 1 3 /\
  snd (@fit cautious observations_1 data_1 None world_1) = inl ZeroDivisionError.
Proof.
  assert (Hdeg : degenerate (columns_of (heap world_1) observations_1) 1 3)
    by (now left).
  split; [ exact Hdeg | ].
  apply (@fit_degenerate_raises cautious world_1 observations_1 data_1 None).
  - reflexivity.
  - repeat split.
  - repeat split; vm_compute; lia.
  - vm_compute. lia.
  - exact I.
  - exact Hdeg.
Defined.

(** ** After a successful fit *)

Lemma consistent_shapes_eq (c : coords) (data : ndarray) (weights : option ndarray) :
  consistent c data weights -> shapes_eq c (shape (fst (fst c))).
Proof.
  destruct c as [[east north] vertical]. intros (Hn & Hv & _). cbn [fst shapes_eq]. auto.
Qed.

(** The values [predict] returns and the world it leaves, for query arrays
    of one shape and no query point on a source. *)
Lemma predict_result (w : world) (c ps : coords) (cf : ndarray) (s : list nat) :
  coefs_ (self w) = Some cf -> points_ (self w) = Some ps ->
  valid_coords (heap w) c -> valid_coords (heap w) ps -> allocated (heap w) cf ->
  shapes_eq c s ->
  let xs := columns_of (heap w) c in
  let srcs := columns_of (heap w) ps in
  (forall i j, (i < length (fst (fst xs)))%nat -> (j < length (fst (fst srcs)))%nat ->
               pair_distance xs srcs i j <> 0) ->
  exists v,
    predict c w = (mk_world (self w) (heap w ++ [v]), inr (mk_ndarray (length (heap w)) s)) /\
    forall i, (i < length (fst (fst xs)))%nat ->
              v.[i] = kernel_sum xs srcs (contents (heap w) cf) i.
Proof.
  intros Hcf Hps Hc Hp Hacf Hsc xs srcs Hd.
  pose proof (broadcast3_same c s Hsc) as Hb.
  rewrite (predict_run c w Hc); [ | now rewrite Hps | now rewrite Hcf ].
  rewrite Hcf, Hb, Hps. cbv zeta. fold xs. fold srcs.
  destruct (predict_numba_run xs srcs (contents (heap w) cf)
              (repeat 0 (prod_shape [prod_shape s])))
    as (buf' & Hrun & _ & Hval & _).
  - rewrite repeat_length. subst xs. rewrite (length_first_column _ _ Hc).
    destruct c as [[a1 a2] a3]. destruct Hsc as (H1 & _). cbn [fst].
    unfold size. rewrite H1. unfold prod_shape. simpl. lia.
  - exact Hd.
  - rewrite Hrun. cbn [fst snd]. exists buf'. split; [ reflexivity | ].
    intros i Hi. rewrite (Hval i Hi), nth_repeat_0. lra.
Qed.

Section Composition.

Context {ext : Collaborators}.

(** X7: when [fit] returns, with a solver that answers one coefficient per
    source, [predict] at the coordinates of the fit does not raise: no
    observation is on a source, since the kernel of [fit] completed.  It
    returns an array of the shape of the coordinates whose value at
    observation i is the kernel sum of the fitted sources with the fitted
    coefficients. *)
Theorem fit_then_predict (w : world) (c : coords) (data : ndarray)
        (weights : option ndarray) :
  (forall sh J d wt dmp cf,
      least_squares sh J d wt dmp = inr cf -> length cf = nth 1 sh 0%nat) ->
  valid_coords (heap w) c ->
  valid_option (valid_coords (heap w)) (points (self w)) ->
  allocated (heap w) data -> valid_option (allocated (heap w)) weights ->
  snd (fit c data weights w) = inr tt ->
  let w' := fst (fit c data weights w) in
  exists pts cf w'' out,
    points_ (self w') = Some pts /\ coefs_ (self w') = Some cf /\
    length (contents (heap w') cf) = size (fst (fst pts)) /\
    predict c w' = (w'', inr out) /\
    shape out = shape (fst (fst c)) /\
    forall i, (i < size (fst (fst c)))%nat ->
      (contents (heap w'') out).[i]
      = kernel_sum (columns_of (heap w) c) (columns_of (heap w') pts)
                   (contents (heap w') cf) i.
Proof.
  intros Hsolver Hvalid Hvp Hd Hw Hok w'.
  destruct (consistent_dec c data weights) as [ Hcons | Hcons ].
  2:{ rewrite (fit_inconsistent c data weights w Hcons) in Hok. discriminate Hok. }
  destruct (fit_unfolded c data weights w Hcons Hvalid Hvp Hd Hw)
    as (placed & pts & Hpts & _ & (t & Ht) & Hvpts & _ & Hfit).
  cbv zeta in Hfit.
  set (sh := [size (fst (fst (ravelled c))); size (fst (fst pts))]) in *.
  set (xs := columns_of (heap w) c) in *.
  set (srcs := columns_of (heap placed) pts) in *.
  destruct (jacobian_numba xs srcs sh (repeat 0 (prod_shape sh))) as [J [ e | [] ]] eqn:Ek;
    cbn [fst snd] in Hfit.
  { rewrite Hfit in Hok. discriminate Hok. }
  assert (Hapart : forall i j, (i < length (fst (fst xs)))%nat ->
                               (j < length (fst (fst srcs)))%nat ->
                               pair_distance xs srcs i j <> 0).
  { apply (jacobian_numba_ok_inv xs srcs sh (repeat 0 (prod_shape sh))).
    now rewrite Ek. }
  destruct (least_squares sh J _ _ _) as [ e | cfl ] eqn:Els.
  { rewrite Hfit in Hok. discriminate Hok. }
  subst w'. rewrite Hfit. cbn [fst].
  set (h' := heap placed ++ [J; cfl]).
  set (cf := mk_ndarray (S (length (heap placed))) [length cfl]).
  assert (Hcontents : contents h' cf = cfl).
  { subst h' cf. replace (S (length (heap placed))) with (length (heap placed) + 1)%nat
      by lia. now rewrite contents_app_r. }
  assert (Hvc' : valid_coords h' c).
  { subst h'. rewrite Ht, <- app_assoc. now apply valid_coords_extends. }
  assert (Hvp' : valid_coords h' pts) by (subst h'; now apply valid_coords_extends).
  assert (Hacf : allocated h' cf).
  { subst h' cf. unfold allocated. cbn [buffer]. rewrite length_app. cbn [length]. lia. }
  assert (Hxs' : columns_of h' c = xs).
  { subst h' xs. rewrite Ht, <- app_assoc. now apply columns_of_app. }
  assert (Hsrcs' : columns_of h' pts = srcs) by (subst h' srcs; now apply columns_of_app).
  destruct (predict_result
              (mk_world (set_coefs_ cf (self placed)) h') c pts cf (shape (fst (fst c))))
    as (v & Hrun & Hval); cbn [self heap set_coefs_ coefs_ points_]; try assumption.
  - reflexivity.
  - exact (consistent_shapes_eq c data weights Hcons).
  - rewrite Hxs', Hsrcs'. exact Hapart.
  - exists pts, cf. eexists _, _.
    cbn [self heap set_coefs_ coefs_ points_].
    split; [ exact Hpts | ]. split; [ reflexivity | ].
    split; [ rewrite Hcontents; exact (Hsolver _ _ _ _ _ _ Els) | ].
    split; [ exact Hrun | ]. cbn [shape heap]. split; [ reflexivity | ].
    intros i Hi. rewrite contents_new.
    cbn [self heap] in Hval. rewrite Hxs', Hsrcs' in Hval.
    rewrite Hval; [ now rewrite Hsrcs' | ].
    subst xs. now rewrite (length_first_column _ _ Hvalid).
Qed.

End Composition.

(** Scenario A with the solver that answers a damped system. *)
Lemma fit_A_accepted (s : HarmonicEQL) (d : R) :
  points s = Some sources_A -> damping s = Some d ->
  snd (@fit cautious observations_A data_A None (mk_world s store_A)) = inr tt.
Proof.
  intros Hpts Hdmp.
  rewrite (@fit_user_run cautious observations_A sources_A data_A None
             (mk_world s store_A) Hpts) by (repeat split).
  cbv zeta. cbn [self heap].
  rewrite fit_tail_run with (pts := ravelled sources_A);
    [ | reflexivity | repeat split; vm_compute; lia | repeat split; vm_compute; lia
      | vm_compute; lia | exact I ].
  cbv zeta. cbn [self heap].
  destruct (jacobian_numba_run (columns_of store_A (ravelled observations_A))
              (columns_of store_A (ravelled sources_A)) (repeat 0 3))
    as (buf' & Hrun & _ & _).
  - reflexivity.
  - intros i j Hi Hj. pose proof (apart_A [] i j Hi Hj) as H.
    now rewrite app_nil_r in H.
  - change (jacobian_numba (columns_of store_A (ravelled observations_A))
              (columns_of store_A (ravelled sources_A)) [3%nat; 1%nat] (repeat 0 3)
            = (buf', inr tt)) in Hrun.
    change (size (fst (fst (ravelled observations_A)))) with 3%nat.
    change (size (fst (fst (ravelled sources_A)))) with 1%nat.
    change (prod_shape [3%nat; 1%nat]) with 3%nat.
    rewrite Hrun. cbn [fst snd]. rewrite Hdmp. reflexivity.
Qed.

Lemma cautious_answers_per_source :
  forall sh J d wt dmp cf,
    @least_squares cautious sh J d wt dmp = inr cf -> length cf = nth 1 sh 0%nat.
Proof.
  intros sh J d wt [ x | ] cf H; cbn in H; [ | discriminate H ].
  injection H as <-. apply repeat_length.
Qed.

(** Scenario A, fitted with damping, then asked at its observations. *)
Lemma fit_then_predict_witness :
  let w' := fst (@fit cautious observations_A data_A None world_A_damped) in
  snd (@fit cautious observations_A data_A None world_A_damped) = inr tt /\
  exists w'' out,
    predict observations_A w' = (w'', inr out) /\ shape out = [3%nat].
Proof.
  intros w'.
  assert (Hok : snd (@fit cautious observations_A data_A None world_A_damped) = inr tt)
    by (apply (fit_A_accepted _ 1); reflexivity).
  split; [ exact Hok | ].
  destruct (@fit_then_predict cautious world_A_damped observations_A data_A None
              cautious_answers_per_source)
    as (pts & cf & w'' & out & _ & _ & _ & Hrun & Hs & _).
  - repeat split; vm_compute; lia.
  - repeat split; vm_compute; lia.
  - vm_compute. lia.
  - exact I.
  - exact Hok.
  - exists w'', out. split; [ exact Hrun | exact Hs ].
Defined.

(** ** Sources given by the caller *)

Section CallerOutcome.

Context {ext : Collaborators}.

(** X10: with m sources given by the caller, three arrays of m entries
    each, and at least one observation, [fit] raises ZeroDivisionError
    exactly when an observation is at distance zero from a source;
    otherwise the kernel completes and the outcome of [fit] is the
    solver's. *)
Theorem fit_user_raises_iff_coincident (w : world) (c p : coords) (data : ndarray)
        (weights : option ndarray) (m : nat) :
  points (self w) = Some p ->
  consistent c data weights ->
  valid_coords (heap w) c -> valid_coords (heap w) p ->
  allocated (heap w) data -> valid_option (allocated (heap w)) weights ->
  (1 <= size (fst (fst c)))%nat -> sizes_eq p m ->
  let xs := columns_of (heap w) c in
  let ps := columns_of (heap w) p in
  let r := snd (fit c data weights w) in
  let coincident :=
    exists i j, (i < size (fst (fst c)))%nat /\ (j < m)%nat /\
                pair_distance xs ps i j = 0 in
  (coincident <-> r = inl ZeroDivisionError) /\
  (~ coincident <-> r = inr tt \/ exists e, r = inl (LeastSquaresError e)).
Proof.
  intros Hpts Hcons Hvalid Hvp Hd Hw H1 Hsz xs ps r coincident.
  destruct (fit_unfolded c data weights w Hcons Hvalid) as
    (placed & pts & _ & _ & (t & Ht) & _ & Hsrc & Hfit); try assumption.
  { now rewrite Hpts. }
  rewrite Hpts in Hsrc. subst pts. cbv zeta in Hfit.
  assert (Hps : columns_of (heap placed) (ravelled p) = ps).
  { rewrite columns_of_ravelled, Ht. now apply columns_of_app. }
  rewrite Hps in Hfit. fold xs in Hfit.
  pose proof (length_first_column _ _ Hvalid) as Hn. fold xs in Hn.
  pose proof (length_first_column _ _ Hvp) as Hm. fold ps in Hm.
  assert (Hsm : size (fst (fst p)) = m) by (destruct p as [[p0 p1] p2]; apply Hsz).
  rewrite Hsm in Hm.
  set (sh := [size (fst (fst (ravelled c))); size (fst (fst (ravelled p)))]) in *.
  assert (Hraise : coincident -> r = inl ZeroDivisionError).
  { intros Hex. subst r. rewrite Hfit.
    rewrite jacobian_numba_raises; [ reflexivity | now rewrite Hn, Hm ]. }
  assert (Hok : ~ coincident -> r = inr tt \/ exists e, r = inl (LeastSquaresError e)).
  { intros Hno.
    assert (Hk : snd (jacobian_numba xs ps sh (repeat 0 (prod_shape sh))) = inr tt).
    { apply jacobian_numba_completes. rewrite Hn, Hm. intros i j Hi Hj Hz.
      apply Hno. now exists i, j. }
    subst r. rewrite Hk in Hfit.
    destruct (least_squares _ _ _ _ _) as [ e | cf ]; rewrite Hfit; cbn [snd].
    - right. now exists e.
    - now left. }
  assert (Hdec : coincident \/ ~ coincident).
  { destruct (coincidence_dec xs ps (size (fst (fst c))) m)
      as [ H | H ]; [ now left | right ].
    intros (i & j & Hi & Hj & Hz). exact (H i j Hi Hj Hz). }
  split; split.
  - exact Hraise.
  - intros Hr. destruct Hdec as [ H | H ]; [ exact H | ].
    destruct (Hok H) as [ Hr' | (e & Hr') ]; rewrite Hr in Hr'; discriminate Hr'.
  - exact Hok.
  - intros Hr Hex. rewrite (Hraise Hex) in Hr.
    destruct Hr as [ Hr | (e & Hr) ]; discriminate Hr.
Qed.

(** X9: [fit] never assigns a parameter of the estimator: whatever its
    arguments and its outcome, [damping], [points] and [depth_factor] are
    after the call what they were before. *)
Theorem fit_assigns_no_parameter (w : world) (c : coords) (data : ndarray)
        (weights : option ndarray) :
  let w' := fst (fit c data weights w) in
  damping (self w') = damping (self w) /\
  points (self w') = points (self w) /\
  depth_factor (self w') = depth_factor (self w).
Proof.
  intros w'. pose proof (fit_keeps_parameters c data weights w) as H.
  cbv beta in H. fold w' in H. injection H as H1 H2 H3. auto.
Qed.

End CallerOutcome.

(** The estimator of scenario A fitted on its own source as observation. *)
Lemma fit_user_raises_iff_coincident_witness :
  consistent sources_A (mk_ndarray 7 [1])%nat None /\
  (1 <= size (fst (fst sources_A)))%nat /\ sizes_eq sources_A 1 /\
  snd (@fit cautious sources_A (mk_ndarray 7 [1])%nat None world_A0)
  = inl ZeroDivisionError.
Proof.
  assert (Hc : consistent sources_A (mk_ndarray 7 [1])%nat None) by (repeat split).
  assert (Hv : valid_coords (heap world_A0) sources_A) by (repeat split; vm_compute; lia).
  assert (H1 : (1 <= size (fst (fst sources_A)))%nat) by (vm_compute; lia).
  assert (Hs : sizes_eq sources_A 1) by (repeat split).
  split; [ exact Hc | ]. split; [ exact H1 | ]. split; [ exact Hs | ].
  apply (proj1 (@fit_user_raises_iff_coincident cautious world_A0 sources_A sources_A
                  (mk_ndarray 7 [1])%nat None 1%nat eq_refl Hc Hv Hv
                  ltac:(vm_compute; lia) I H1 Hs)).
  exists 0%nat, 0%nat. split; [ vm_compute; lia | ]. split; [ lia | ].
  unfold pair_distance. cbn. apply distance_self.
Defined.

Section Below.

Context {ext : Collaborators}.

(** X11: with a depth factor that is not negative, on n >= 1 observations,
    each default source is at or below its observation. *)
Theorem default_sources_below (w : world) (c : coords) (data : ndarray)
        (weights : option ndarray) :
  points (self w) = None ->
  consistent c data weights ->
  valid_coords (heap w) c ->
  allocated (heap w) data -> valid_option (allocated (heap w)) weights ->
  0 <= depth_factor (self w) ->
  let xs := columns_of (heap w) c in
  let n := size (fst (fst c)) in
  (1 <= n)%nat ->
  let w' := fst (fit c data weights w) in
  exists pe pn pv,
    points_ (self w') = Some (pe, pn, pv) /\
    forall i, (i < n)%nat -> (contents (heap w') pv).[i] <= (snd xs).[i].
Proof.
  intros Hpts Hcons Hvalid Hd Hw Hf xs n H1 w'.
  pose proof (columns_length_valid _ _ _ _ Hcons Hvalid) as Hlen.
  fold xs in Hlen. fold n in Hlen.
  destruct (fit_default_result c data weights w Hpts Hcons Hvalid Hd Hw)
    as ((t & Ht) & _ & Hp & _).
  fold w' in Ht, Hp. fold n in Ht, Hp. fold xs in Ht.
  eexists _, _, _. split; [ exact Hp | ].
  intros i Hi. rewrite Ht, contents_app_r. cbn [nth].
  destruct (default_sources_nth xs n (depth_factor (self w)) i Hlen Hi)
    as (_ & _ & _ & Hv).
  rewrite Hv. pose proof (nearest_nonneg xs i) as Hnn. nra.
Qed.

End Below.

(** Scenario B of the spec: neither source is above its observation. *)
Lemma default_sources_below_witness :
  let w' := fst (@fit cautious observations_B data_B None world_B) in
  0 <= depth_factor (self world_B) /\
  exists pe pn pv,
    points_ (self w') = Some (pe, pn, pv) /\
    (contents (heap w') pv).[0] <= 0 /\ (contents (heap w') pv).[1] <= 0.
Proof.
  intros w'.
  assert (Hf : 0 <= depth_factor (self world_B)) by (cbn; lra).
  split; [ exact Hf | ].
  destruct (@default_sources_below cautious world_B observations_B data_B None)
    as (pe & pn & pv & Hp & Hall); try exact I; try reflexivity.
  - repeat split.
  - repeat split; vm_compute; lia.
  - vm_compute. lia.
  - exact Hf.
  - vm_compute. lia.
  - fold w' in Hp, Hall. exists pe, pn, pv. split; [ exact Hp | ].
    change (size (fst (fst observations_B))) with 2%nat in Hall.
    split.
    + exact (Hall 0%nat ltac:(lia)).
    + exact (Hall 1%nat ltac:(lia)).
Defined.

(** ** The prediction kernel on a used buffer *)


